(** * Linguistic Analysis Service: a shallow embedding of
      [linguistic-service/main.py] and the properties of its scoring pipeline.

    Modelling conventions.
    - A Python [str] is a [string]; a character is a code point below 256
      (the one-byte kind of CPython strings), classified the way CPython
      classifies U+0000..U+00FF.
    - A Python [int] is a [Z]; a Python [float] is an exact rational [Q]
      (finite values, no rounding error); [round(x, 2)] rounds the exact
      value half-to-even.
    - An exception is a value of [exn]; code that can raise returns a
      [outcome].  [try/except Exception] is a [match] on the outcome.
    - The Python [set] literal [DISCOURSE_MARKERS] is a [gset string]; a
      [for] loop over it visits [elements DISCOURSE_MARKERS].
    - The external capabilities (spaCy, COAST, textstat, LingFeat) are
      parameters of the service: each may be absent where the module-level
      [try/except] of the source allows it, and each call may raise. *)

From Stdlib Require Import Ascii String QArith Qround Lqa.
From stdpp Require Import base option gmap strings list.

Local Open Scope Z_scope.

(** ** Exceptions *)

Inductive exn :=
| ZeroDivisionError
| Exception (msg : string).

(** [str(e)] *)
Definition str_of_exn (e : exn) : string :=
  match e with
  | ZeroDivisionError => "division by zero"
  | Exception msg => msg
  end.

Inductive outcome (A : Type) :=
| Ok (a : A)
| Raise (e : exn).
Arguments Ok {A} a.
Arguments Raise {A} e.

#[global] Instance outcome_ret : MRet outcome := λ A a, Ok a.
#[global] Instance outcome_bind : MBind outcome := λ A B f m,
  match m with
  | Ok a => f a
  | Raise e => Raise e
  end.

(** ** Python built-ins on [str] *)

Definition ord (c : ascii) : N := N_of_ascii c.
Definition chr (n : N) : ascii := ascii_of_N n.

Definition in_range (lo hi n : N) : bool := ((lo <=? n) && (n <=? hi))%N.

Module str.

(** [c.isspace()] for one character: TAB..CR, FS..US, SPACE, NEL, NBSP. *)
Definition isspace (c : ascii) : bool :=
  let n := ord c in
  in_range 9 13 n || in_range 28 32 n || (n =? 133)%N || (n =? 160)%N.

(** [c.isalnum()] for one character. *)
Definition isalnum (c : ascii) : bool :=
  let n := ord c in
  in_range 48 57 n || in_range 65 90 n || in_range 97 122 n
  || (n =? 170)%N || in_range 178 179 n || (n =? 181)%N
  || in_range 185 186 n || in_range 188 190 n
  || in_range 192 214 n || in_range 216 246 n || in_range 248 255 n.

(** [c.lower()] for one character: A..Z and the upper-case letters of
    U+00C0..U+00DE (U+00D7 is the multiplication sign). *)
Definition lower_char (c : ascii) : ascii :=
  let n := ord c in
  if in_range 65 90 n || (in_range 192 222 n && negb (n =? 215)%N)
  then chr (n + 32) else c.

(** [s.lower()] *)
Fixpoint lower (s : string) : string :=
  match s with
  | EmptyString => EmptyString
  | String c s' => String (lower_char c) (lower s')
  end.

(** [len(s)] *)
Definition len (s : string) : Z := Z.of_nat (String.length s).

(** [s.lstrip()] *)
Fixpoint lstrip (s : string) : string :=
  match s with
  | EmptyString => EmptyString
  | String c s' => if isspace c then lstrip s' else s
  end.

(** [s.rstrip()] *)
Fixpoint rstrip (s : string) : string :=
  match s with
  | EmptyString => EmptyString
  | String c s' =>
      match rstrip s' with
      | EmptyString => if isspace c then EmptyString else String c EmptyString
      | r => String c r
      end
  end.

(** [s.strip()] *)
Definition strip (s : string) : string := rstrip (lstrip s).

(** [s.split()]: the maximal runs of non-whitespace characters.
    [word] is the run being scanned. *)
Fixpoint split_from (word s : string) : list string :=
  match s with
  | EmptyString =>
      match word with EmptyString => [] | _ => [word] end
  | String c s' =>
      if isspace c then
        match word with
        | EmptyString => split_from EmptyString s'
        | _ => word :: split_from EmptyString s'
        end
      else split_from (word +:+ String c EmptyString) s'
  end.

Definition split (s : string) : list string := split_from EmptyString s.

(** [sub in s] *)
Fixpoint contains (sub s : string) : bool :=
  String.prefix sub s
  || match s with
     | EmptyString => false
     | String _ s' => contains sub s'
     end.

End str.

(** [not s] for a string: the empty string is falsy. *)
Definition is_empty (s : string) : bool :=
  match s with EmptyString => true | _ => false end.

(** [x in l] for a list of strings. *)
Definition list_contains (x : string) (l : list string) : bool :=
  existsb (String.eqb x) l.

(** ** The fragment of [re] the service uses *)

Module re.

(** The characters [re.escape] puts a backslash before. *)
Definition special_chars : string :=
  String (chr 9) (String (chr 10) (String (chr 11) (String (chr 12)
    (String (chr 13) "()[]{}?*+-|^$\.&~# ")))).

Definition is_special (c : ascii) : bool :=
  str.contains (String c EmptyString) special_chars.

Definition backslash : ascii := chr 92.

(** [re.escape(s)] *)
Fixpoint escape (s : string) : string :=
  match s with
  | EmptyString => EmptyString
  | String c s' =>
      if is_special c then String backslash (String c (escape s'))
      else String c (escape s')
  end.

(** Parsed patterns: sequences of literal characters and [\b]. *)
Inductive node :=
| Literal (c : ascii)
| Boundary.

(** Characters with a meaning of their own in a pattern. *)
Definition is_meta (c : ascii) : bool :=
  str.contains (String c EmptyString) ".^$*+?{}[]\|()".

Definition is_ascii_alnum (c : ascii) : bool :=
  let n := ord c in
  in_range 48 57 n || in_range 65 90 n || in_range 97 122 n.

(** The parser of the fragment: [\b] is the word boundary, a backslash
    before a character that is no ASCII letter or digit makes it a
    literal, an unescaped character that is no metacharacter is a
    literal.  Every other pattern is outside the fragment ([None]). *)
Fixpoint parse (p : string) : option (list node) :=
  match p with
  | EmptyString => Some []
  | String c p' =>
      if Ascii.eqb c backslash then
        match p' with
        | EmptyString => None
        | String e p'' =>
            if Ascii.eqb e "b"%char then cons Boundary <$> parse p''
            else if is_ascii_alnum e then None
            else cons (Literal e) <$> parse p''
        end
      else if is_meta c then None
      else cons (Literal c) <$> parse p'
  end.

(** [\w] on a [str] pattern: alphanumeric or underscore. *)
Definition is_word (c : ascii) : bool :=
  str.isalnum c || Ascii.eqb c "_"%char.

(** The character at the current position, if any. *)
Definition peek (s : string) : option ascii :=
  match s with
  | EmptyString => None
  | String c _ => Some c
  end.

Definition is_word_at (o : option ascii) : bool :=
  match o with
  | Some c => is_word c
  | None => false
  end.

(** [\b] holds between [prev] and the rest [s] when exactly one side is
    a word character; the ends of the string count as non-word. *)
Definition at_boundary (prev : option ascii) (s : string) : bool :=
  xorb (is_word_at prev) (is_word_at (peek s)).

(** Does the pattern match at the current position?  [prev] is the
    character just before it. *)
Fixpoint match_here (p : list node) (prev : option ascii) (s : string) : bool :=
  match p with
  | [] => true
  | Boundary :: p' => at_boundary prev s && match_here p' prev s
  | Literal c :: p' =>
      match s with
      | EmptyString => false
      | String c' s' => Ascii.eqb c c' && match_here p' (Some c') s'
      end
  end.

(** Scan the start positions from left to right. *)
Fixpoint search_from (p : list node) (prev : option ascii) (s : string) : bool :=
  match_here p prev s
  || match s with
     | EmptyString => false
     | String c s' => search_from p (Some c) s'
     end.

(** [re.search(pattern, s)] as a truth value.  A pattern outside the
    fragment raises, as a malformed pattern does. *)
Definition search (pattern s : string) : outcome bool :=
  match parse pattern with
  | Some p => Ok (search_from p None s)
  | None => Raise (Exception "re.error")
  end.

End re.

(** ** Python arithmetic *)

(** [min(a, b)] and [max(a, b)] of the built-ins: the first argument is
    kept unless the second is strictly smaller (larger). *)
Definition Qlt_bool (x y : Q) : bool := negb (Qle_bool y x).
Definition py_min (a b : Q) : Q := if Qlt_bool b a then b else a.
Definition py_max (a b : Q) : Q := if Qlt_bool a b then b else a.
Definition py_min_int (a b : Z) : Z := if b <? a then b else a.

(** [a / b] on two ints. *)
Definition int_truediv (a b : Z) : outcome Q :=
  if b =? 0 then Raise ZeroDivisionError else Ok (inject_Z a / inject_Z b)%Q.

(** [a / b] on two floats. *)
Definition float_truediv (a b : Q) : outcome Q :=
  if Qeq_bool b 0 then Raise ZeroDivisionError else Ok (a / b)%Q.

(** Rounding of an exact value to the nearest integer, ties to even. *)
Definition round_half_even (x : Q) : Z :=
  let f := Qfloor x in
  match (x - inject_Z f ?= 1 # 2)%Q with
  | Lt => f
  | Gt => f + 1
  | Eq => if Z.even f then f else f + 1
  end.

(** [round(x, 2)] *)
Definition round2 (x : Q) : Q := (inject_Z (round_half_even (x * 100)) / 100)%Q.

(** [sum(1 for x in l if p(x))] *)
Definition count_if {A} (p : A → bool) (l : list A) : Z :=
  fold_left (λ acc x, if p x then acc + 1 else acc) l 0.

(** [sum(f(x) for x in l)] *)
Definition sum_of {A} (f : A → Z) (l : list A) : Z :=
  fold_left (λ acc x, acc + f x) l 0.

(** ** Request and response models *)

Module Segment.
Record t := {
  segment_index : Z;
  text : string;
}.
End Segment.
Abbreviation Segment := Segment.t.

Record AnalysisRequest := {
  segments : list Segment;
}.

Record POSCounts := {
  nouns : Z;
  verbs : Z;
  adjectives : Z;
  adverbs : Z;
  pronouns : Z;
  prepositions : Z;
  conjunctions : Z;
  interjections : Z;
}.

(** [POSCounts()] *)
Definition POSCounts_default : POSCounts :=
  {| nouns := 0; verbs := 0; adjectives := 0; adverbs := 0;
     pronouns := 0; prepositions := 0; conjunctions := 0; interjections := 0 |}.

Record ReadabilityMetrics := {
  flesch_reading_ease : Q;
  flesch_kincaid_grade : Q;
  gunning_fog : Q;
  smog_index : Q;
  automated_readability_index : Q;
  coleman_liau_index : Q;
}.

(** [ReadabilityMetrics()] *)
Definition ReadabilityMetrics_default : ReadabilityMetrics :=
  {| flesch_reading_ease := 0.0; flesch_kincaid_grade := 0.0; gunning_fog := 0.0;
     smog_index := 0.0; automated_readability_index := 0.0;
     coleman_liau_index := 0.0 |}%Q.

Record LingFeatSummary := {
  lexical_diversity : Q;
  avg_word_length : Q;
  sentence_complexity : Q;
}.

Record SegmentResult := {
  segment_index : Z;
  text : string;
  orality_score : Q;
  parts_of_speech : POSCounts;
  discourse_markers : list string;
  readability_score : Q;
  readability_metrics : option ReadabilityMetrics;
  lingfeat_summary : option LingFeatSummary;
}.

Record AnalysisResponse := {
  success : bool;
  error : option string;
  results : list SegmentResult;
}.

(** What a caller of [POST /analyze] receives: the response model with
    status 200, or the error response of a raised [HTTPException], which
    carries a status code and a detail message only. *)
Inductive http_response :=
| Response200 (body : AnalysisResponse)
| HTTPException (status_code : Z) (detail : string).

(** ** Discourse markers *)

Definition DISCOURSE_MARKERS : gset string := list_to_set [
  (* Additive *)
  "also"; "and"; "besides"; "furthermore"; "moreover"; "additionally"; "plus";
  (* Contrastive *)
  "but"; "however"; "although"; "though"; "yet"; "still"; "nevertheless"; "nonetheless";
  "on the other hand"; "in contrast"; "conversely";
  (* Causal *)
  "because"; "since"; "therefore"; "thus"; "so"; "hence"; "consequently"; "as a result";
  (* Temporal *)
  "then"; "first"; "next"; "finally"; "meanwhile"; "afterwards"; "previously"; "subsequently";
  (* Topic markers *)
  "well"; "now"; "okay"; "right"; "so"; "anyway"; "actually"; "basically";
  (* Hedging *)
  "like"; "sort of"; "kind of"; "i think"; "i guess"; "maybe"; "perhaps"; "probably";
  (* Response markers *)
  "yes"; "yeah"; "no"; "right"; "okay"; "sure"; "absolutely"
].

(** ** External capabilities *)

(** A spaCy token, reduced to the attribute the service reads. *)
Record Token := {
  pos_ : string;
}.

Module textstat.
(** The six functions of [textstat] the service calls; each may raise. *)
Record api := {
  flesch_reading_ease : string → outcome Q;
  flesch_kincaid_grade : string → outcome Q;
  gunning_fog : string → outcome Q;
  smog_index : string → outcome Q;
  automated_readability_index : string → outcome Q;
  coleman_liau_index : string → outcome Q;
}.
End textstat.

(** ** Analysis functions *)

Definition incr_nouns (c : POSCounts) : POSCounts :=
  {| nouns := nouns c + 1; verbs := verbs c; adjectives := adjectives c;
     adverbs := adverbs c; pronouns := pronouns c; prepositions := prepositions c;
     conjunctions := conjunctions c; interjections := interjections c |}.
Definition incr_verbs (c : POSCounts) : POSCounts :=
  {| nouns := nouns c; verbs := verbs c + 1; adjectives := adjectives c;
     adverbs := adverbs c; pronouns := pronouns c; prepositions := prepositions c;
     conjunctions := conjunctions c; interjections := interjections c |}.
Definition incr_adjectives (c : POSCounts) : POSCounts :=
  {| nouns := nouns c; verbs := verbs c; adjectives := adjectives c + 1;
     adverbs := adverbs c; pronouns := pronouns c; prepositions := prepositions c;
     conjunctions := conjunctions c; interjections := interjections c |}.
Definition incr_adverbs (c : POSCounts) : POSCounts :=
  {| nouns := nouns c; verbs := verbs c; adjectives := adjectives c;
     adverbs := adverbs c + 1; pronouns := pronouns c; prepositions := prepositions c;
     conjunctions := conjunctions c; interjections := interjections c |}.
Definition incr_pronouns (c : POSCounts) : POSCounts :=
  {| nouns := nouns c; verbs := verbs c; adjectives := adjectives c;
     adverbs := adverbs c; pronouns := pronouns c + 1; prepositions := prepositions c;
     conjunctions := conjunctions c; interjections := interjections c |}.
Definition incr_prepositions (c : POSCounts) : POSCounts :=
  {| nouns := nouns c; verbs := verbs c; adjectives := adjectives c;
     adverbs := adverbs c; pronouns := pronouns c; prepositions := prepositions c + 1;
     conjunctions := conjunctions c; interjections := interjections c |}.
Definition incr_conjunctions (c : POSCounts) : POSCounts :=
  {| nouns := nouns c; verbs := verbs c; adjectives := adjectives c;
     adverbs := adverbs c; pronouns := pronouns c; prepositions := prepositions c;
     conjunctions := conjunctions c + 1; interjections := interjections c |}.
Definition incr_interjections (c : POSCounts) : POSCounts :=
  {| nouns := nouns c; verbs := verbs c; adjectives := adjectives c;
     adverbs := adverbs c; pronouns := pronouns c; prepositions := prepositions c;
     conjunctions := conjunctions c; interjections := interjections c + 1 |}.

(** The body of the [for token in doc] loop of [analyze_pos]. *)
Definition count_token (counts : POSCounts) (token : Token) : POSCounts :=
  let pos := pos_ token in
  if (pos =? "NOUN")%string || (pos =? "PROPN")%string then incr_nouns counts
  else if (pos =? "VERB")%string || (pos =? "AUX")%string then incr_verbs counts
  else if (pos =? "ADJ")%string then incr_adjectives counts
  else if (pos =? "ADV")%string then incr_adverbs counts
  else if (pos =? "PRON")%string then incr_pronouns counts
  else if (pos =? "ADP")%string then incr_prepositions counts
  else if (pos =? "CCONJ")%string || (pos =? "SCONJ")%string then incr_conjunctions counts
  else if (pos =? "INTJ")%string then incr_interjections counts
  else counts.

Definition personal_pronouns : list string :=
  ["i"; "you"; "we"; "me"; "my"; "your"; "our"].

Definition contractions : list string :=
  ["'m"; "'re"; "'ve"; "'ll"; "'d"; "n't"; "'s"].

(** [sum(1 for marker in DISCOURSE_MARKERS if marker in text.lower())] *)
Definition discourse_count (text : string) : Z :=
  count_if (λ marker, str.contains marker (str.lower text)) (elements DISCOURSE_MARKERS).

(** [sum(1 for w in words if w in personal_pronouns)] *)
Definition pronoun_count (words : list string) : Z :=
  count_if (λ w, list_contains w personal_pronouns) words.

(** [sum(1 for c in contractions if c in text.lower())] *)
Definition contraction_count (text : string) : Z :=
  count_if (λ c, str.contains c (str.lower text)) contractions.

(** The points of the word-length indicator. *)
Definition word_length_points (avg_word_len : Q) : Q :=
  if Qlt_bool avg_word_len 4 then 25
  else if Qlt_bool avg_word_len 5 then 15
  else if Qlt_bool avg_word_len 6 then 5
  else 0.

(** The fallback of [analyze_orality]: the heuristic score from the four
    indicators (everything after the COAST attempt). *)
Definition heuristic_orality (text : string) : outcome Q :=
  if is_empty (str.strip text) then Ok 50.0%Q else
  let orality_indicators := 0.0%Q in
  let total_weight := 0.0%Q in
  let words := str.split (str.lower text) in
  let word_count := Z.of_nat (length words) in
  if word_count =? 0 then Ok 50.0%Q else
  (* discourse markers *)
  ratio ← int_truediv (discourse_count text) word_count;
  let discourse_density := (ratio * 100)%Q in
  let orality_indicators := (orality_indicators + py_min (discourse_density * 5) 25)%Q in
  let total_weight := (total_weight + 25)%Q in
  (* personal pronouns *)
  ratio ← int_truediv (pronoun_count words) word_count;
  let pronoun_density := (ratio * 100)%Q in
  let orality_indicators := (orality_indicators + py_min (pronoun_density * 3) 25)%Q in
  let total_weight := (total_weight + 25)%Q in
  (* short average word length *)
  avg_word_len ←
    (if 0 <? word_count then int_truediv (sum_of str.len words) word_count
     else Ok 5%Q);
  let orality_indicators := (orality_indicators + word_length_points avg_word_len)%Q in
  let total_weight := (total_weight + 25)%Q in
  (* contractions *)
  let orality_indicators :=
    (orality_indicators + inject_Z (py_min_int (contraction_count text * 5) 25))%Q in
  let total_weight := (total_weight + 25)%Q in
  if Qlt_bool 0 total_weight then
    ratio ← float_truediv orality_indicators total_weight; Ok (ratio * 100)%Q
  else Ok 50.0%Q.

(** The body of the [for marker in DISCOURSE_MARKERS] loop of
    [extract_discourse_markers], over the markers still to visit. *)
Fixpoint extract_loop (markers : list string) (text_lower : string)
    (found : list string) : outcome (list string) :=
  match markers with
  | [] => Ok found
  | marker :: rest =>
      if str.contains marker text_lower then
        m ← re.search ("\b" +:+ re.escape marker +:+ "\b") text_lower;
        if (m : bool) then extract_loop rest text_lower (found ++ [marker])
        else extract_loop rest text_lower found
      else extract_loop rest text_lower found
  end.

Definition extract_discourse_markers (text : string) : outcome (list string) :=
  let found := [] in
  let text_lower := str.lower text in
  extract_loop (elements DISCOURSE_MARKERS) text_lower found.

Section Service.

(** [nlp]: the loaded spaCy pipeline; [None] when the model was not found. *)
Variable nlp : option (string → outcome (list Token)).
(** [coast.orality_score]; [None] when [COAST_AVAILABLE] is false. *)
Variable coast : option (string → outcome Q).
(** The [textstat] module. *)
Variable ts : textstat.api.
(** [lingfeat.extractor.pass_text(text).preprocess().extract()], the
    feature dict; [None] when [LINGFEAT_AVAILABLE] is false. *)
Variable lingfeat : option (string → outcome (gmap string Q)).

Definition analyze_pos (text : string) : outcome POSCounts :=
  match nlp with
  | None => Ok POSCounts_default
  | Some nlp =>
      doc ← nlp text;
      let counts := POSCounts_default in
      Ok (fold_left count_token doc counts)
  end.

Definition analyze_readability (text : string) : Q * ReadabilityMetrics :=
  if is_empty (str.strip text) then (0.0%Q, ReadabilityMetrics_default) else
  let attempt : outcome (Q * ReadabilityMetrics) :=
    v1 ← textstat.flesch_reading_ease ts text;
    v2 ← textstat.flesch_kincaid_grade ts text;
    v3 ← textstat.gunning_fog ts text;
    v4 ← textstat.smog_index ts text;
    v5 ← textstat.automated_readability_index ts text;
    v6 ← textstat.coleman_liau_index ts text;
    let metrics :=
      {| flesch_reading_ease := v1; flesch_kincaid_grade := v2; gunning_fog := v3;
         smog_index := v4; automated_readability_index := v5;
         coleman_liau_index := v6 |} in
    let primary_score := py_max 0.0 (py_min 100.0 (flesch_reading_ease metrics)) in
    Ok (primary_score, metrics) in
  match attempt with
  | Ok r => r
  | Raise e => (0.0%Q, ReadabilityMetrics_default)
  end.

Definition analyze_orality (text : string) : outcome Q :=
  match coast with
  | Some orality_score =>
      let attempt : outcome Q :=
        score ← orality_score text;
        Ok (py_min 100.0 (py_max 0.0 (score * 100))) in
      match attempt with
      | Ok r => Ok r
      | Raise e => heuristic_orality text
      end
  | None => heuristic_orality text
  end.

Definition analyze_lingfeat (text : string) : option LingFeatSummary :=
  match lingfeat with
  | None => None
  | Some extract =>
      if is_empty (str.strip text) then None else
      match extract text with
      | Ok features =>
          Some {| lexical_diversity := default 0.0%Q (features !! "LexicalDiversity");
                  avg_word_length := default 0.0%Q (features !! "AvgWordLength");
                  sentence_complexity := default 0.0%Q (features !! "SentenceComplexity") |}
      | Raise e => None
      end
  end.

Definition analyze_segment (segment : Segment) : outcome SegmentResult :=
  let text := str.strip (Segment.text segment) in
  pos_counts ← analyze_pos text;
  let '(readability_score, readability_metrics) := analyze_readability text in
  orality_score ← analyze_orality text;
  discourse_markers ← extract_discourse_markers text;
  let lingfeat_summary := analyze_lingfeat text in
  Ok {| segment_index := Segment.segment_index segment;
        text := text;
        orality_score := round2 orality_score;
        parts_of_speech := pos_counts;
        discourse_markers := discourse_markers;
        readability_score := round2 readability_score;
        readability_metrics := Some readability_metrics;
        lingfeat_summary := lingfeat_summary |}.

(** The [for segment in request.segments] loop of [analyze]. *)
Fixpoint analyze_loop (segs : list Segment) (results : list SegmentResult)
    : outcome (list SegmentResult) :=
  match segs with
  | [] => Ok results
  | segment :: rest =>
      r ← analyze_segment segment;
      analyze_loop rest (results ++ [r])
  end.

(** [POST /analyze] *)
Definition analyze (request : AnalysisRequest) : http_response :=
  match analyze_loop (segments request) [] with
  | Ok results => Response200 {| success := true; error := None; results := results |}
  | Raise e => HTTPException 500 (str_of_exn e)
  end.

End Service.

(** ** Vocabulary of the statements *)

(** [sub] occurs in [s] between [pre] and [post]. *)
Definition occurs_at (pre sub post s : string) : Prop := s = pre +:+ sub +:+ post.

(** Every character of [s] is whitespace. *)
Fixpoint all_space (s : string) : bool :=
  match s with
  | EmptyString => true
  | String c s' => str.isspace c && all_space s'
  end.

(** Case analysis over the 256 characters. *)
Ltac each_char c := destruct c as [[] [] [] [] [] [] [] []].

(** Case analysis over the string comparisons of a tag in the goal. *)
Ltac tag_cases pos :=
  repeat match goal with
  | |- context [String.eqb pos ?t] =>
      let E := fresh "E" in
      destruct (String.eqb pos t) eqn:E;
      [apply String.eqb_eq in E; subst pos|]
  end.

(** The pattern nodes of a literal string. *)
Fixpoint literals (s : string) : list re.node :=
  match s with
  | EmptyString => []
  | String c s' => re.Literal c :: literals s'
  end.

(** The last character of [s], or [prev] when [s] is empty. *)
Fixpoint last_char (prev : option ascii) (s : string) : option ascii :=
  match s with
  | EmptyString => prev
  | String c s' => last_char (Some c) s'
  end.

(** [sub] occurs in [s] as a whole token or phrase: the character before
    the occurrence, if any, and the character after it, if any, are no
    word characters. *)
Definition occurs_as_whole_word (sub s : string) : Prop :=
  ∃ pre post, occurs_at pre sub post s
    ∧ re.is_word_at (last_char None pre) = false
    ∧ re.is_word_at (re.peek post) = false.

(** [s] begins and ends with a word character. *)
Definition word_delimited (s : string) : bool :=
  re.is_word_at (re.peek s) && re.is_word_at (last_char None s).

(** The two tests of the detector's loop body on one marker, with the
    pattern in parsed form. *)
Definition marker_found (text_lower marker : string) : bool :=
  str.contains marker text_lower
  && re.search_from (re.Boundary :: literals marker ++ [re.Boundary]) None text_lower.

(** The tags of the aggregator's table. *)
Definition pos_table : list string :=
  ["NOUN"; "PROPN"; "VERB"; "AUX"; "ADJ"; "ADV"; "PRON"; "ADP"; "CCONJ"; "SCONJ"; "INTJ"].

(** The number of tokens of [doc] whose tag is one of [tags]. *)
Definition tag_count (tags : list string) (doc : list Token) : Z :=
  count_if (λ token, list_contains (pos_ token) tags) doc.

(** The counts the table assigns to a tagged document. *)
Definition bucket_counts (doc : list Token) : POSCounts :=
  {| nouns := tag_count ["NOUN"; "PROPN"] doc;
     verbs := tag_count ["VERB"; "AUX"] doc;
     adjectives := tag_count ["ADJ"] doc;
     adverbs := tag_count ["ADV"] doc;
     pronouns := tag_count ["PRON"] doc;
     prepositions := tag_count ["ADP"] doc;
     conjunctions := tag_count ["CCONJ"; "SCONJ"] doc;
     interjections := tag_count ["INTJ"] doc |}.

(** Field-wise sum of two count records. *)
Definition add_counts (a b : POSCounts) : POSCounts :=
  {| nouns := nouns a + nouns b;
     verbs := verbs a + verbs b;
     adjectives := adjectives a + adjectives b;
     adverbs := adverbs a + adverbs b;
     pronouns := pronouns a + pronouns b;
     prepositions := prepositions a + prepositions b;
     conjunctions := conjunctions a + conjunctions b;
     interjections := interjections a + interjections b |}.

(** The segment results a caller finds in a response: those of the body
    of a 200 response; the error response carries none. *)
Definition results_of (r : http_response) : list SegmentResult :=
  match r with
  | Response200 body => results body
  | HTTPException _ _ => []
  end.

(** ** Sample capabilities and requests *)

(** A readability calculator that returns the same value for each formula. *)
Definition sample_textstat (v : Q) : textstat.api :=
  {| textstat.flesch_reading_ease := λ _, Ok v;
     textstat.flesch_kincaid_grade := λ _, Ok v;
     textstat.gunning_fog := λ _, Ok v;
     textstat.smog_index := λ _, Ok v;
     textstat.automated_readability_index := λ _, Ok v;
     textstat.coleman_liau_index := λ _, Ok v |}.

(** A tagger that tags every word as a noun and fails on one text. *)
Definition sample_tagger (text : string) : outcome (list Token) :=
  if (text =? "boom")%string then Raise (Exception "tagger failed")
  else Ok ((λ _, {| pos_ := "NOUN" |}) <$> str.split text).

Definition sample_request : AnalysisRequest :=
  {| segments := [ {| Segment.segment_index := 3; Segment.text := "Well, I think so." |};
                   {| Segment.segment_index := 1; Segment.text := "  " |};
                   {| Segment.segment_index := 2; Segment.text := "Gasoline is expensive" |} ] |}.

Definition failing_request : AnalysisRequest :=
  {| segments := [ {| Segment.segment_index := 3; Segment.text := "Well, I think so." |};
                   {| Segment.segment_index := 1; Segment.text := "boom" |};
                   {| Segment.segment_index := 2; Segment.text := "Gasoline is expensive" |} ] |}.

(** ** The four indicators of the heuristic, by name *)

(** [text.lower().split()] and its length *)
Definition words_of (text : string) : list string := str.split (str.lower text).
Definition word_count (text : string) : Z := Z.of_nat (length (words_of text)).

(** [min(discourse_density * 5, 25)] *)
Definition discourse_points (text : string) : Q :=
  py_min (inject_Z (discourse_count text) / inject_Z (word_count text) * 100 * 5) 25.

(** [min(pronoun_density * 3, 25)] *)
Definition pronoun_points (text : string) : Q :=
  py_min (inject_Z (pronoun_count (words_of text)) / inject_Z (word_count text) * 100 * 3) 25.

(** The points for the average word length. *)
Definition length_points (text : string) : Q :=
  word_length_points (inject_Z (sum_of str.len (words_of text)) / inject_Z (word_count text)).

(** [min(contraction_count * 5, 25)] *)
Definition contraction_points (text : string) : Z :=
  py_min_int (contraction_count text * 5) 25.

(** ** The contraction indicator as the specification words it *)

(** The number of positions of [s] at which [sub] occurs. *)
Fixpoint occurrences (sub s : string) : Z :=
  (if String.prefix sub s then 1 else 0)
  + match s with
    | EmptyString => 0
    | String _ s' => occurrences sub s'
    end.

(** Occurrences of the contraction markers in the lower-cased text,
    times 5, capped at 25. *)
Definition contraction_points_by_occurrence (text : string) : Z :=
  py_min_int (sum_of (λ c, occurrences c (str.lower text)) contractions * 5) 25.

(** ** Vocabulary of the further properties *)

(** [s] is empty or begins with a character that is no whitespace. *)
Definition no_leading_space (s : string) : bool :=
  match s with
  | EmptyString => true
  | String c _ => negb (str.isspace c)
  end.

(** A readability calculator whose Gunning fog formula raises. *)
Definition failing_textstat : textstat.api :=
  {| textstat.flesch_reading_ease := λ _, Ok 60%Q;
     textstat.flesch_kincaid_grade := λ _, Ok 8%Q;
     textstat.gunning_fog := λ _, Raise ZeroDivisionError;
     textstat.smog_index := λ _, Ok 9%Q;
     textstat.automated_readability_index := λ _, Ok 7%Q;
     textstat.coleman_liau_index := λ _, Ok 6%Q |}.

(** The sum of the eight counters. *)
Definition total_count (c : POSCounts) : Z :=
  nouns c + verbs c + adjectives c + adverbs c + pronouns c
  + prepositions c + conjunctions c + interjections c.

(** A COAST model that fails on one text and returns 1.3 otherwise. *)
Definition sample_coast (text : string) : outcome Q :=
  if (text =? "boom")%string then Raise (Exception "model failed") else Ok 1.3%Q.

(** A feature extractor that returns one of the three features. *)
Definition sample_lingfeat (text : string) : outcome (gmap string Q) :=
  if (text =? "boom")%string then Raise (Exception "extractor failed")
  else Ok {[ "AvgWordLength" := 4.5%Q ]}.

(** The document [sample_tagger] returns for a text it accepts. *)
Definition sample_tagger_doc (text : string) : list Token :=
  (λ _, {| pos_ := "NOUN" |}) <$> str.split text.

(** A tagger that returns its document in reverse order. *)
Definition reversed_tagger (text : string) : outcome (list Token) :=
  Ok (reverse ((λ w, {| pos_ := if (w =? "is")%string then "AUX" else "NOUN" |})
                 <$> str.split text)).

(** The same tagger with the document in text order. *)
Definition forward_tagger (text : string) : outcome (list Token) :=
  Ok ((λ w, {| pos_ := if (w =? "is")%string then "AUX" else "NOUN" |})
        <$> str.split text).

(** * Properties *)

(** ** Facts about the error monad *)

Lemma bind_Ok {A B} (m : outcome A) (f : A → outcome B) (b : B) :
  m ≫= f = Ok b ↔ ∃ a, m = Ok a ∧ f a = Ok b.
Proof.
  destruct m as [a|e]; simpl; split.
  - intros H. by exists a.
  - by intros (a' & [= <-] & H).
  - discriminate.
  - by intros (a' & [=] & _).
Qed.

Lemma bind_Raise {A B} (m : outcome A) (f : A → outcome B) (e : exn) :
  m ≫= f = Raise e ↔ m = Raise e ∨ ∃ a, m = Ok a ∧ f a = Raise e.
Proof.
  destruct m as [a|e']; simpl; split.
  - intros H. right. by exists a.
  - intros [[=] | (a' & [= <-] & H)]. done.
  - intros [= ->]. by left.
  - intros [[= ->] | (a' & [=] & _)]. done.
Qed.

(** ** Facts about the string built-ins *)

Lemma prefix_spec (sub s : string) :
  String.prefix sub s = true ↔ ∃ post, s = sub +:+ post.
Proof.
  revert s. induction sub as [|a sub IH]; intros [|b s]; simpl.
  - split; [intros _; by exists EmptyString | done].
  - split; [intros _; by exists (String b s) | done].
  - split; [done | by intros (post & [=])].
  - destruct (ascii_dec a b) as [->|Hne].
    + rewrite IH. split; intros (post & Hp); exists post; [by rewrite Hp | by injection Hp].
    + split; [done | intros (post & [= Hab _]); by destruct Hne].
Qed.

Lemma contains_spec (sub s : string) :
  str.contains sub s = true ↔ ∃ pre post, occurs_at pre sub post s.
Proof.
  unfold occurs_at. induction s as [|c s IH]; cbn [str.contains].
  - rewrite orb_false_r, prefix_spec. split.
    + intros (post & ->). by exists EmptyString, post.
    + intros ([|c pre] & post & H); [by exists post | discriminate].
  - rewrite orb_true_iff, prefix_spec, IH. split.
    + intros [(post & ->) | (pre & post & ->)].
      * by exists EmptyString, post.
      * by exists (String c pre), post.
    + intros ([|c' pre] & post & H).
      * left. by exists post.
      * right. injection H as -> ->. by exists pre, post.
Qed.

Lemma isspace_lower_char (c : ascii) :
  str.isspace (str.lower_char c) = str.isspace c.
Proof. each_char c; reflexivity. Qed.

Lemma all_space_lower (s : string) : all_space (str.lower s) = all_space s.
Proof.
  induction s as [|c s IH]; simpl; [done|].
  by rewrite isspace_lower_char, IH.
Qed.

Lemma lstrip_all_space (s : string) : all_space (str.lstrip s) = all_space s.
Proof.
  induction s as [|c s IH]; simpl; [done|].
  destruct (str.isspace c) eqn:Hc; simpl; [done | by rewrite Hc].
Qed.

Lemma rstrip_is_empty (s : string) : is_empty (str.rstrip s) = all_space s.
Proof.
  induction s as [|c s IH]; simpl; [done|].
  destruct (str.rstrip s) eqn:Hr; simpl in *.
  - rewrite <- IH. by destruct (str.isspace c).
  - rewrite <- IH. by rewrite andb_false_r.
Qed.

(** [text.strip()] is empty exactly when [text] is all whitespace. *)
Lemma strip_is_empty (s : string) : is_empty (str.strip s) = all_space s.
Proof. unfold str.strip. by rewrite rstrip_is_empty, lstrip_all_space. Qed.

Lemma split_from_word (word s : string) :
  is_empty word = false → str.split_from word s ≠ [].
Proof.
  revert word. induction s as [|c s IH]; intros word Hw; simpl.
  - by destruct word.
  - destruct (str.isspace c).
    + by destruct word.
    + apply IH. by destruct word.
Qed.

Lemma split_from_nonspace (word s : string) :
  all_space s = false → str.split_from word s ≠ [].
Proof.
  revert word. induction s as [|c s IH]; intros word Hs; simpl in *; [done|].
  destruct (str.isspace c); simpl in *.
  - destruct word; [by apply IH | done].
  - apply split_from_word. by destruct word.
Qed.

(** A text that is not blank has at least one word. *)
Lemma split_lower_nonempty (text : string) :
  is_empty (str.strip text) = false →
  0 < Z.of_nat (length (str.split (str.lower text))).
Proof.
  rewrite strip_is_empty, <- all_space_lower. intros Hs.
  pose proof (split_from_nonspace EmptyString _ Hs) as Hne.
  unfold str.split. destruct (str.split_from _ _); [done | simpl; lia].
Qed.

(** A blank text has no word. *)
Lemma split_all_space (s : string) : all_space s = true → str.split s = [].
Proof.
  unfold str.split. induction s as [|c s IH]; simpl; [done|].
  intros [Hc Hs]%andb_true_iff. rewrite Hc. by apply IH.
Qed.

(** ** Facts about the pattern fragment *)

Lemma special_escaped (c : ascii) :
  re.is_special c = true →
  Ascii.eqb c "b" = false ∧ re.is_ascii_alnum c = false.
Proof. each_char c; vm_compute; intros H; by try discriminate H. Qed.

Lemma plain_unescaped (c : ascii) :
  re.is_special c = false →
  Ascii.eqb c re.backslash = false ∧ re.is_meta c = false.
Proof. each_char c; vm_compute; intros H; by try discriminate H. Qed.

Lemma append_nil_l (s : string) : EmptyString +:+ s = s.
Proof. reflexivity. Qed.

Lemma append_cons (c : ascii) (s t : string) : String c s +:+ t = String c (s +:+ t).
Proof. reflexivity. Qed.

(** An escaped string parses as the sequence of its characters. *)
Lemma parse_escape (m rest : string) :
  re.parse (re.escape m +:+ rest) = (literals m ++.) <$> re.parse rest.
Proof.
  induction m as [|c m IH]; cbn [re.escape literals].
  - rewrite append_nil_l. by destruct (re.parse rest).
  - destruct (re.is_special c) eqn:Hc; rewrite !append_cons.
    + destruct (special_escaped c Hc) as [Hb Ha].
      cbn [re.parse]. rewrite Ascii.eqb_refl, Hb, Ha, IH.
      by destruct (re.parse rest).
    + destruct (plain_unescaped c Hc) as [Hb Hm].
      cbn [re.parse]. rewrite Hb, Hm, IH.
      by destruct (re.parse rest).
Qed.

(** The pattern the detector builds always parses: word boundary, the
    marker's characters, word boundary. *)
Lemma parse_marker_pattern (marker : string) :
  re.parse ("\b" +:+ re.escape marker +:+ "\b")
  = Some (re.Boundary :: literals marker ++ [re.Boundary]).
Proof.
  change ("\b" +:+ re.escape marker +:+ "\b")
    with (String re.backslash (String "b" (re.escape marker +:+ "\b"))).
  cbn [re.parse]. rewrite Ascii.eqb_refl. cbn [Ascii.eqb Bool.eqb].
  by rewrite parse_escape.
Qed.

Lemma match_here_literals (m : string) (p : list re.node) prev (s : string) :
  re.match_here (literals m ++ p) prev s = true
  ↔ ∃ rest, s = m +:+ rest ∧ re.match_here p (last_char prev m) rest = true.
Proof.
  revert prev s. induction m as [|c m IH]; intros prev s; cbn [literals app last_char].
  - split; [intros H; by exists s | by intros (rest & -> & H)].
  - cbn [re.match_here]. destruct s as [|c' s].
    + split; [done | by intros (rest & [=] & _)].
    + rewrite andb_true_iff, Ascii.eqb_eq, IH. split.
      * intros (-> & rest & -> & H). by exists rest.
      * intros (rest & [= -> ->] & H). split; [done | by exists rest].
Qed.

Lemma search_from_spec (p : list re.node) prev (s : string) :
  re.search_from p prev s = true
  ↔ ∃ pre post, s = pre +:+ post ∧ re.match_here p (last_char prev pre) post = true.
Proof.
  revert prev. induction s as [|c s IH]; intros prev; cbn [re.search_from].
  - rewrite orb_false_r. split.
    + intros H. by exists EmptyString, EmptyString.
    + intros ([|c pre] & post & Hs & H); [|done].
      rewrite append_nil_l in Hs. by subst post.
  - rewrite orb_true_iff, IH. split.
    + intros [H | (pre & post & -> & H)].
      * by exists EmptyString, (String c s).
      * by exists (String c pre), post.
    + intros ([|c' pre] & post & Hs & H).
      * left. rewrite append_nil_l in Hs. by subst post.
      * right. rewrite append_cons in Hs. injection Hs as -> ->. by exists pre, post.
Qed.

Lemma peek_append (m rest : string) :
  is_empty m = false → re.peek (m +:+ rest) = re.peek m.
Proof. by destruct m. Qed.

Lemma last_char_nonempty prev (m : string) :
  is_empty m = false → last_char prev m = last_char None m.
Proof. by destruct m. Qed.

Lemma word_delimited_nonempty (m : string) :
  word_delimited m = true → is_empty m = false.
Proof. by destruct m. Qed.

(** For a marker that begins and ends with a word character, the pattern
    [\b marker \b] is found exactly at the whole-word occurrences. *)
Lemma boundary_search_spec (marker s : string) :
  word_delimited marker = true →
  re.search_from (re.Boundary :: literals marker ++ [re.Boundary]) None s = true
  ↔ occurs_as_whole_word marker s.
Proof.
  intros Hwd. pose proof (word_delimited_nonempty _ Hwd) as Hne.
  apply andb_true_iff in Hwd as [Hfirst Hlast].
  rewrite search_from_spec. unfold occurs_as_whole_word, occurs_at.
  split.
  - intros (pre & post0 & -> & Hm). cbn [re.match_here] in Hm.
    apply andb_true_iff in Hm as [Hb1 Hm].
    apply match_here_literals in Hm as (post & -> & Hm).
    cbn [re.match_here] in Hm. rewrite andb_true_r in Hm.
    exists pre, post. split; [done|].
    unfold re.at_boundary in *.
    rewrite peek_append, Hfirst in Hb1 by done.
    rewrite last_char_nonempty, Hlast in Hm by done.
    split; [by destruct (re.is_word_at (last_char None pre))
           | by destruct (re.is_word_at (re.peek post))].
  - intros (pre & post & -> & Hpre & Hpost).
    exists pre, (marker +:+ post). split; [done|].
    cbn [re.match_here]. apply andb_true_iff. split.
    + unfold re.at_boundary. by rewrite peek_append, Hfirst, Hpre.
    + apply match_here_literals. exists post. split; [done|].
      cbn [re.match_here]. unfold re.at_boundary.
      by rewrite last_char_nonempty, Hlast, Hpost.
Qed.

(** ** The discourse marker detector *)

(** The loop appends, in iteration order, the markers that pass both
    tests; it never raises. *)
Lemma extract_loop_spec (markers : list string) (text_lower : string)
    (found : list string) :
  extract_loop markers text_lower found
  = Ok (found ++ List.filter (marker_found text_lower) markers).
Proof.
  revert found. induction markers as [|marker rest IH]; intros found;
    cbn [extract_loop List.filter].
  - by rewrite app_nil_r.
  - unfold marker_found at 1, re.search. rewrite parse_marker_pattern.
    destruct (str.contains marker text_lower); cbn [andb mbind outcome_bind].
    + destruct (re.search_from _ None text_lower); rewrite IH; [|done].
      by rewrite <- app_assoc.
    + by rewrite IH.
Qed.

Lemma extract_discourse_markers_spec (text : string) :
  extract_discourse_markers text
  = Ok (List.filter (marker_found (str.lower text)) (elements DISCOURSE_MARKERS)).
Proof. unfold extract_discourse_markers. by rewrite extract_loop_spec. Qed.

(** Every marker of the lexicon begins and ends with a word character. *)
Lemma lexicon_word_delimited (marker : string) :
  marker ∈ DISCOURSE_MARKERS → word_delimited marker = true.
Proof.
  unfold DISCOURSE_MARKERS. rewrite elem_of_list_to_set, list_elem_of_In.
  match goal with
  | |- In _ ?l → _ =>
      assert (HF : forallb word_delimited l = true) by (vm_compute; reflexivity)
  end.
  intros Hin. by apply (proj1 (forallb_forall _ _) HF).
Qed.

Lemma marker_found_spec (text_lower marker : string) :
  marker ∈ DISCOURSE_MARKERS →
  marker_found text_lower marker = true ↔ occurs_as_whole_word marker text_lower.
Proof.
  intros Hin. unfold marker_found.
  rewrite andb_true_iff, boundary_search_spec by by apply lexicon_word_delimited.
  split; [by intros [_ H] | intros H; split; [|done]].
  apply contains_spec. destruct H as (pre & post & H & _). by exists pre, post.
Qed.

(** C4. The detector returns a marker exactly when the marker belongs to
    the lexicon and occurs in the lower-cased text as a whole token or
    phrase, with no word character directly before or after it; it never
    matches inside a longer word.  For "Gasoline is expensive" the result
    holds neither "so" (a substring of "gasoline") nor "as". *)
Theorem discourse_markers_whole_word :
  (∀ text : string, ∃ found,
      extract_discourse_markers text = Ok found
      ∧ ∀ marker, marker ∈ found
          ↔ (marker ∈ DISCOURSE_MARKERS
             ∧ occurs_as_whole_word marker (str.lower text)))
  ∧ str.contains "so" (str.lower "Gasoline is expensive") = true
  ∧ ∃ found, extract_discourse_markers "Gasoline is expensive" = Ok found
      ∧ ("so" ∉ found) ∧ ("as" ∉ found).
Proof.
  split; [|split].
  - intros text. eexists. split; [apply extract_discourse_markers_spec|].
    intros marker. rewrite list_elem_of_In, filter_In, <- list_elem_of_In.
    rewrite elem_of_elements. split.
    + intros [Hin Hm]. split; [done | by apply marker_found_spec].
    + intros [Hin Hm]. split; [done | by apply marker_found_spec].
  - reflexivity.
  - exists []. split; [by vm_compute|]. split; apply not_elem_of_nil.
Qed.

Lemma NoDup_list_filter {A} (f : A → bool) (l : list A) :
  NoDup l → NoDup (List.filter f l).
Proof.
  induction 1 as [|x l Hx Hl IH]; cbn [List.filter]; [constructor|].
  destruct (f x); [|done]. constructor; [|done].
  rewrite list_elem_of_In, filter_In, <- list_elem_of_In. by intros [? _].
Qed.

(** C9. The list returned by the detector has no duplicate, although
    "so", "right" and "okay" are written twice in the lexicon. *)
Theorem discourse_markers_no_duplicates (text : string) :
  ∃ found, extract_discourse_markers text = Ok found ∧ NoDup found.
Proof.
  eexists. split; [apply extract_discourse_markers_spec|].
  apply NoDup_list_filter, NoDup_elements.
Qed.

(** ** Counting *)

Lemma count_if_acc {A} (p : A → bool) (l : list A) (acc : Z) :
  fold_left (λ acc x, if p x then acc + 1 else acc) l acc = acc + count_if p l.
Proof.
  unfold count_if. revert acc. induction l as [|x l IH]; intros acc; simpl; [lia|].
  rewrite IH, (IH (if p x then 0 + 1 else 0)). destruct (p x); lia.
Qed.

Lemma count_if_cons {A} (p : A → bool) (x : A) (l : list A) :
  count_if p (x :: l) = (if p x then 1 else 0) + count_if p l.
Proof.
  unfold count_if at 1. simpl. rewrite count_if_acc. by destruct (p x).
Qed.

Lemma count_if_nonneg {A} (p : A → bool) (l : list A) : 0 ≤ count_if p l.
Proof.
  induction l as [|x l IH]; [done|]. rewrite count_if_cons. destruct (p x); lia.
Qed.

Lemma count_if_le_length {A} (p : A → bool) (l : list A) :
  count_if p l ≤ Z.of_nat (length l).
Proof.
  induction l as [|x l IH]; [done|]. rewrite count_if_cons.
  cbn [length]. destruct (p x); lia.
Qed.

(** ** The POS bucket aggregator *)

Lemma count_token_step (counts : POSCounts) (token : Token) (doc : list Token) :
  add_counts (count_token counts token) (bucket_counts doc)
  = add_counts counts (bucket_counts (token :: doc)).
Proof.
  destruct token as [pos]. destruct counts.
  unfold bucket_counts, tag_count. rewrite !count_if_cons.
  unfold count_token, list_contains, add_counts. cbn [pos_ existsb].
  tag_cases pos; cbn; f_equal; lia.
Qed.

Lemma fold_count_token (doc : list Token) (counts : POSCounts) :
  fold_left count_token doc counts = add_counts counts (bucket_counts doc).
Proof.
  revert counts. induction doc as [|token doc IH]; intros counts; cbn [fold_left].
  - destruct counts. unfold add_counts. cbn. f_equal; lia.
  - by rewrite IH, count_token_step.
Qed.

Lemma add_counts_default (c : POSCounts) : add_counts POSCounts_default c = c.
Proof. by destruct c. Qed.

(** A tag outside the table leaves every counter as it is. *)
Lemma count_token_other (counts : POSCounts) (token : Token) :
  pos_ token ∉ pos_table → count_token counts token = counts.
Proof.
  destruct token as [pos]. unfold pos_table, count_token. cbn [pos_]. intros Hout.
  tag_cases pos; try done; exfalso; apply Hout; set_solver.
Qed.

(** C8. The aggregator maps each tag by the fixed table, leaves the
    counts unchanged for a tag outside the table, counts a tagged document
    bucket by bucket, and returns all-zero counts for every text when the
    tagger is unavailable; an error of the tagger is passed on. *)
Theorem pos_bucket_table :
  (∀ counts,
      count_token counts {| pos_ := "NOUN" |} = incr_nouns counts
      ∧ count_token counts {| pos_ := "PROPN" |} = incr_nouns counts
      ∧ count_token counts {| pos_ := "VERB" |} = incr_verbs counts
      ∧ count_token counts {| pos_ := "AUX" |} = incr_verbs counts
      ∧ count_token counts {| pos_ := "ADJ" |} = incr_adjectives counts
      ∧ count_token counts {| pos_ := "ADV" |} = incr_adverbs counts
      ∧ count_token counts {| pos_ := "PRON" |} = incr_pronouns counts
      ∧ count_token counts {| pos_ := "ADP" |} = incr_prepositions counts
      ∧ count_token counts {| pos_ := "CCONJ" |} = incr_conjunctions counts
      ∧ count_token counts {| pos_ := "SCONJ" |} = incr_conjunctions counts
      ∧ count_token counts {| pos_ := "INTJ" |} = incr_interjections counts)
  ∧ (∀ counts token, pos_ token ∉ pos_table → count_token counts token = counts)
  ∧ (∀ tagger text,
      analyze_pos (Some tagger) text
      = match tagger text with
        | Ok doc => Ok (bucket_counts doc)
        | Raise e => Raise e
        end)
  ∧ (∀ text, analyze_pos None text = Ok POSCounts_default).
Proof.
  split; [|split; [|split]].
  - intros counts. by repeat split.
  - apply count_token_other.
  - intros tagger text. unfold analyze_pos.
    destruct (tagger text) as [doc|e]; cbn; [|done].
    by rewrite fold_count_token, add_counts_default.
  - done.
Qed.

Lemma pos_bucket_table_witness :
  (pos_ {| pos_ := "PUNCT" |} ∉ pos_table)
  ∧ count_token POSCounts_default {| pos_ := "PUNCT" |} = POSCounts_default.
Proof.
  assert (H : pos_ {| pos_ := "PUNCT" |} ∉ pos_table).
  { unfold pos_table. cbn [pos_]. intros Hin.
    repeat (apply elem_of_cons in Hin as [Hin|Hin]; [discriminate Hin|]).
    by apply elem_of_nil in Hin. }
  split; [exact H|].
  exact (proj1 (proj2 pos_bucket_table) POSCounts_default {| pos_ := "PUNCT" |} H).
Defined.

(** ** The batch pipeline *)

Section Pipeline.

Context (nlp : option (string → outcome (list Token)))
        (coast : option (string → outcome Q))
        (ts : textstat.api)
        (lingfeat : option (string → outcome (gmap string Q))).

Local Abbreviation segment_outcome := (analyze_segment nlp coast ts lingfeat).
Local Abbreviation loop_outcome := (analyze_loop nlp coast ts lingfeat).

(** A result carries the index of the segment it was computed from. *)
Lemma analyze_segment_index (segment : Segment) (r : SegmentResult) :
  segment_outcome segment = Ok r →
  segment_index r = Segment.segment_index segment.
Proof.
  unfold analyze_segment. intros H.
  apply bind_Ok in H as (pos_counts & _ & H).
  destruct (analyze_readability ts _) as [score metrics].
  apply bind_Ok in H as (orality & _ & H).
  apply bind_Ok in H as (markers & _ & H).
  by injection H as <-.
Qed.

(** A loop that completes has appended one result per segment, in order. *)
Lemma analyze_loop_Ok (segs : list Segment) (acc results : list SegmentResult) :
  loop_outcome segs acc = Ok results →
  ∃ new, results = acc ++ new
    ∧ Forall2 (λ segment r, segment_outcome segment = Ok r) segs new.
Proof.
  revert acc. induction segs as [|segment rest IH]; intros acc; cbn [analyze_loop].
  - intros [= <-]. exists []. by rewrite app_nil_r.
  - intros H. apply bind_Ok in H as (r & Hr & H).
    apply IH in H as (new & -> & Hnew).
    exists (r :: new). split; [by rewrite <- app_assoc | by constructor].
Qed.

(** A loop that meets a failing segment raises, whatever was collected. *)
Lemma analyze_loop_Raise (segs : list Segment) (acc : list SegmentResult) :
  (∃ segment e, segment ∈ segs ∧ segment_outcome segment = Raise e) →
  ∃ e, loop_outcome segs acc = Raise e.
Proof.
  revert acc. induction segs as [|segment rest IH]; intros acc (s & e & Hin & Hs).
  - by apply elem_of_nil in Hin.
  - cbn [analyze_loop].
    destruct (segment_outcome segment) as [r|e'] eqn:Hseg; [|by exists e'].
    cbn. apply IH. exists s, e. split; [|done].
    apply elem_of_cons in Hin as [->|Hin]; [congruence | done].
Qed.

End Pipeline.

(** C2. A batch that succeeds answers with one result per input segment,
    in input order, each the analysis of its segment and carrying that
    segment's index. *)
Theorem batch_results_mirror_input nlp coast ts lingfeat
    (request : AnalysisRequest) (body : AnalysisResponse) :
  analyze nlp coast ts lingfeat request = Response200 body →
  success body = true
  ∧ length (results body) = length (segments request)
  ∧ segment_index <$> results body = Segment.segment_index <$> segments request
  ∧ Forall2 (λ segment r, analyze_segment nlp coast ts lingfeat segment = Ok r)
      (segments request) (results body).
Proof.
  unfold analyze.
  destruct (analyze_loop _ _ _ _ _ _) as [rs|e] eqn:Hloop; [|done].
  intros [= <-]. cbn [success results].
  apply analyze_loop_Ok in Hloop as (new & -> & Hnew). rewrite app_nil_l.
  split; [done|]. split; [by rewrite (Forall2_length _ _ _ Hnew)|].
  split; [|done].
  induction Hnew as [|segment r segs rs Hr _ IH]; [done|].
  cbn [fmap list_fmap]. f_equal; [|exact IH].
  by apply analyze_segment_index in Hr.
Qed.

Lemma batch_results_mirror_input_witness :
  ∃ body,
    analyze (Some sample_tagger) None (sample_textstat 60) None sample_request
    = Response200 body
    ∧ segment_index <$> results body = [3; 1; 2].
Proof.
  eexists. split; [vm_compute; reflexivity|].
  refine (proj1 (proj2 (proj2
    (batch_results_mirror_input (Some sample_tagger) None (sample_textstat 60) None
       sample_request _ _)))).
  vm_compute. reflexivity.
Defined.

(** C3. When the analysis of any segment of a batch raises, the whole
    batch fails: the caller receives the error response with status 500,
    which carries no segment result, whatever was computed for the
    segments before the failing one. *)
Theorem batch_failure_no_partial_results nlp coast ts lingfeat
    (request : AnalysisRequest) :
  (∃ segment e, segment ∈ segments request
      ∧ analyze_segment nlp coast ts lingfeat segment = Raise e) →
  (∃ e, analyze nlp coast ts lingfeat request = HTTPException 500 (str_of_exn e))
  ∧ results_of (analyze nlp coast ts lingfeat request) = [].
Proof.
  intros Hfail.
  destruct (analyze_loop_Raise nlp coast ts lingfeat _ [] Hfail) as [e He].
  unfold analyze. rewrite He. split; [by exists e | done].
Qed.

Lemma batch_failure_no_partial_results_witness :
  (∃ e, analyze (Some sample_tagger) None (sample_textstat 60) None failing_request
        = HTTPException 500 (str_of_exn e))
  ∧ results_of (analyze (Some sample_tagger) None (sample_textstat 60) None
                  failing_request) = [].
Proof.
  apply batch_failure_no_partial_results.
  exists {| Segment.segment_index := 1; Segment.text := "boom" |},
    (Exception "tagger failed").
  split; [|vm_compute; reflexivity].
  unfold failing_request. cbn [segments]. set_solver.
Defined.

(** ** Arithmetic of the scores *)

Lemma Qlt_bool_iff (x y : Q) : Qlt_bool x y = true ↔ (x < y)%Q.
Proof.
  unfold Qlt_bool. rewrite negb_true_iff, <- not_true_iff_false, Qle_bool_iff.
  split; [apply Qnot_le_lt | apply Qlt_not_le].
Qed.

Lemma Qlt_bool_false (x y : Q) : Qlt_bool x y = false ↔ (y <= x)%Q.
Proof.
  unfold Qlt_bool. by rewrite negb_false_iff, Qle_bool_iff.
Qed.

Lemma py_min_bounds (a b lo : Q) :
  (lo <= a)%Q → (lo <= b)%Q → (lo <= py_min a b)%Q ∧ (py_min a b <= b)%Q.
Proof.
  intros Ha Hb. unfold py_min. destruct (Qlt_bool b a) eqn:E.
  - split; [done | apply Qle_refl].
  - apply Qlt_bool_false in E. done.
Qed.

Lemma py_max_bounds (a b hi : Q) :
  (a <= hi)%Q → (b <= hi)%Q → (a <= py_max a b)%Q ∧ (py_max a b <= hi)%Q.
Proof.
  intros Ha Hb. unfold py_max. destruct (Qlt_bool a b) eqn:E.
  - apply Qlt_bool_iff in E. split; [by apply Qlt_le_weak | done].
  - split; [apply Qle_refl | done].
Qed.

(** [min(100.0, max(0.0, x))] lies in [0, 100]. *)
Lemma clamp_min_max (x : Q) :
  (0 <= py_min 100.0 (py_max 0.0 x))%Q ∧ (py_min 100.0 (py_max 0.0 x) <= 100)%Q.
Proof.
  unfold py_min, py_max.
  destruct (Qlt_bool 0.0 x) eqn:E1.
  - apply Qlt_bool_iff in E1. destruct (Qlt_bool x 100.0) eqn:E2.
    + apply Qlt_bool_iff in E2. split; lra.
    + split; lra.
  - destruct (Qlt_bool 0.0 100.0) eqn:E2; split; lra.
Qed.

(** [max(0.0, min(100.0, x))] lies in [0, 100]. *)
Lemma clamp_max_min (x : Q) :
  (0 <= py_max 0.0 (py_min 100.0 x))%Q ∧ (py_max 0.0 (py_min 100.0 x) <= 100)%Q.
Proof.
  unfold py_min, py_max.
  destruct (Qlt_bool x 100.0) eqn:E1.
  - apply Qlt_bool_iff in E1. destruct (Qlt_bool 0.0 x) eqn:E2.
    + apply Qlt_bool_iff in E2. split; lra.
    + split; lra.
  - destruct (Qlt_bool 0.0 100.0) eqn:E2; split; lra.
Qed.

Lemma int_truediv_pos (a b : Z) :
  0 < b → int_truediv a b = Ok (inject_Z a / inject_Z b)%Q.
Proof.
  intros Hb. unfold int_truediv. destruct (b =? 0) eqn:E; [lia | done].
Qed.

Lemma ratio_nonneg (a b : Z) : 0 ≤ a → 0 < b → (0 <= inject_Z a / inject_Z b)%Q.
Proof.
  intros Ha Hb. apply Qle_shift_div_l.
  - change 0%Q with (inject_Z 0). by rewrite <- Zlt_Qlt.
  - rewrite Qmult_0_l. change 0%Q with (inject_Z 0). by rewrite <- Zle_Qle.
Qed.

(** ** The heuristic orality score *)

(** On a text that is not blank the heuristic performs its three integer
    divisions and the final float division without error and returns the
    sum of the four indicators over the total weight, times 100. *)
Lemma heuristic_orality_points (text : string) :
  is_empty (str.strip text) = false →
  heuristic_orality text
  = Ok ((0.0 + discourse_points text + pronoun_points text + length_points text
         + inject_Z (contraction_points text))
        / (0.0 + 25 + 25 + 25 + 25) * 100)%Q.
Proof.
  intros Hne.
  assert (Hwc : 0 < word_count text) by by apply split_lower_nonempty.
  unfold heuristic_orality. rewrite Hne. cbv zeta.
  change (str.split (str.lower text)) with (words_of text).
  change (Z.of_nat (length (words_of text))) with (word_count text).
  destruct (word_count text =? 0) eqn:E0; [lia|].
  rewrite int_truediv_pos by done. cbn [mbind outcome_bind].
  rewrite int_truediv_pos by done. cbn [mbind outcome_bind].
  destruct (0 <? word_count text) eqn:E1; [|lia].
  rewrite int_truediv_pos by done. cbn [mbind outcome_bind].
  reflexivity.
Qed.

(** A blank text scores the neutral 50. *)
Lemma heuristic_orality_blank (text : string) :
  is_empty (str.strip text) = true → heuristic_orality text = Ok 50.0%Q.
Proof. intros H. unfold heuristic_orality. by rewrite H. Qed.

Lemma discourse_points_bounds (text : string) :
  0 < word_count text →
  (0 <= discourse_points text)%Q ∧ (discourse_points text <= 25)%Q.
Proof.
  intros Hwc. unfold discourse_points.
  pose proof (ratio_nonneg (discourse_count text) (word_count text)
                (count_if_nonneg _ _) Hwc).
  apply (py_min_bounds _ 25 0); lra.
Qed.

Lemma pronoun_points_bounds (text : string) :
  0 < word_count text →
  (0 <= pronoun_points text)%Q ∧ (pronoun_points text <= 25)%Q.
Proof.
  intros Hwc. unfold pronoun_points.
  pose proof (ratio_nonneg (pronoun_count (words_of text)) (word_count text)
                (count_if_nonneg _ _) Hwc).
  apply (py_min_bounds _ 25 0); lra.
Qed.

Lemma word_length_points_bounds (avg : Q) :
  (0 <= word_length_points avg)%Q ∧ (word_length_points avg <= 25)%Q.
Proof.
  unfold word_length_points.
  destruct (Qlt_bool avg 4); [done|].
  destruct (Qlt_bool avg 5); [done|].
  destruct (Qlt_bool avg 6); done.
Qed.

Lemma contraction_points_bounds (text : string) :
  0 ≤ contraction_points text ≤ 25.
Proof.
  unfold contraction_points, py_min_int.
  pose proof (count_if_nonneg (λ c, str.contains c (str.lower text)) contractions).
  fold (contraction_count text) in H.
  destruct (25 <? contraction_count text * 5) eqn:E; lia.
Qed.

(** With the total weight 100 the final scaling returns the sum itself. *)
Lemma weighted_sum_id (d p l c : Q) :
  ((0.0 + d + p + l + c) / (0.0 + 25 + 25 + 25 + 25) * 100 == d + p + l + c)%Q.
Proof. field. Qed.

(** The heuristic always returns a value, and the value lies in [0, 100]. *)
Lemma heuristic_orality_range (text : string) :
  ∃ v, heuristic_orality text = Ok v ∧ (0 <= v)%Q ∧ (v <= 100)%Q.
Proof.
  destruct (is_empty (str.strip text)) eqn:Hs.
  - exists 50.0%Q. split; [by apply heuristic_orality_blank | done].
  - eexists. split; [by apply heuristic_orality_points|].
    assert (Hwc : 0 < word_count text) by by apply split_lower_nonempty.
    destruct (discourse_points_bounds text Hwc) as [Hd0 Hd1].
    destruct (pronoun_points_bounds text Hwc) as [Hp0 Hp1].
    destruct (word_length_points_bounds
      (inject_Z (sum_of str.len (words_of text)) / inject_Z (word_count text)))
      as [Hl0 Hl1].
    fold (length_points text) in Hl0, Hl1.
    pose proof (contraction_points_bounds text) as [Hc0 Hc1].
    rewrite Zle_Qle in Hc0, Hc1.
    change (inject_Z 0) with 0%Q in Hc0. change (inject_Z 25) with 25%Q in Hc1.
    rewrite weighted_sum_id. split; lra.
Qed.

(** C10. The heuristic is total and never divides by zero: a text that is
    not blank has a positive word count, and for every text the heuristic,
    and with it the scorer under any COAST capability, returns a value. *)
Theorem heuristic_orality_total (text : string) :
  (is_empty (str.strip text) = false → 0 < word_count text)
  ∧ (∃ v, heuristic_orality text = Ok v)
  ∧ (∀ coast, ∃ v, analyze_orality coast text = Ok v).
Proof.
  split; [apply split_lower_nonempty|].
  destruct (heuristic_orality_range text) as (v & Hv & _).
  split; [by exists v|].
  intros coast. unfold analyze_orality.
  destruct coast as [orality_score|]; [|by exists v].
  destruct (orality_score text) as [score|e]; cbn; [by eexists | by exists v].
Qed.

Lemma heuristic_orality_total_witness :
  is_empty (str.strip " you know ") = false ∧ 0 < word_count " you know ".
Proof.
  split; [reflexivity|].
  apply (proj1 (heuristic_orality_total " you know ")). reflexivity.
Defined.

Lemma analyze_orality_range coast (text : string) :
  ∃ v, analyze_orality coast text = Ok v ∧ (0 <= v)%Q ∧ (v <= 100)%Q.
Proof.
  unfold analyze_orality.
  destruct coast as [orality_score|]; [|apply heuristic_orality_range].
  destruct (orality_score text) as [score|e]; cbn; [|apply heuristic_orality_range].
  eexists. split; [done|]. apply clamp_min_max.
Qed.

Lemma analyze_readability_range ts (text : string) :
  (0 <= (analyze_readability ts text).1)%Q
  ∧ ((analyze_readability ts text).1 <= 100)%Q.
Proof.
  unfold analyze_readability.
  destruct (is_empty (str.strip text)); [done|].
  destruct (textstat.flesch_reading_ease ts text) as [v1|]; cbn; [|done].
  destruct (textstat.flesch_kincaid_grade ts text) as [v2|]; cbn; [|done].
  destruct (textstat.gunning_fog ts text) as [v3|]; cbn; [|done].
  destruct (textstat.smog_index ts text) as [v4|]; cbn; [|done].
  destruct (textstat.automated_readability_index ts text) as [v5|]; cbn; [|done].
  destruct (textstat.coleman_liau_index ts text) as [v6|]; cbn; [|done].
  apply clamp_max_min.
Qed.

(** C1. For every text the orality score returned by the scorer, with or
    without the COAST capability, and the primary readability score
    returned by the readability adapter lie in [0, 100]. *)
Theorem scores_in_range coast ts (text : string) :
  (∃ v, analyze_orality coast text = Ok v ∧ (0 <= v)%Q ∧ (v <= 100)%Q)
  ∧ (0 <= (analyze_readability ts text).1)%Q
  ∧ ((analyze_readability ts text).1 <= 100)%Q.
Proof.
  split; [apply analyze_orality_range | apply analyze_readability_range].
Qed.

(** C7. Without COAST, the example sentence has four discourse-marker
    hits by containment, two pronoun tokens and one contraction marker,
    and scores 70, which is above 50. *)
Theorem example_orality_above_50 :
  let text := "I think it's kind of complicated, you know?" in
  discourse_count text = 4
  ∧ pronoun_count (words_of text) = 2
  ∧ contraction_count text = 1
  ∧ ∃ v, analyze_orality None text = Ok v ∧ (v == 70)%Q ∧ (50 < v)%Q.
Proof.
  cbv zeta. split; [by vm_compute|]. split; [by vm_compute|].
  split; [by vm_compute|].
  eexists. split; [vm_compute; reflexivity|].
  split; vm_compute; reflexivity.
Qed.

(** ** Blank segments *)

Lemma is_empty_eq (s : string) : is_empty s = true → s = EmptyString.
Proof. by destruct s. Qed.

(** C5. For a segment whose text is empty or all whitespace, with COAST
    unavailable and a tagger that is absent or yields no token for the
    empty text, the analysis returns orality 50.0, readability 0.0, no
    discourse marker and all-zero POS counts. *)
Theorem blank_segment_result nlp ts lingfeat (segment : Segment) :
  is_empty (str.strip (Segment.text segment)) = true →
  (∀ tagger, nlp = Some tagger → tagger EmptyString = Ok []) →
  ∃ r, analyze_segment nlp None ts lingfeat segment = Ok r
    ∧ (orality_score r == 50.0)%Q
    ∧ (readability_score r == 0.0)%Q
    ∧ discourse_markers r = []
    ∧ parts_of_speech r = POSCounts_default.
Proof.
  intros Hblank Htagger. apply is_empty_eq in Hblank.
  unfold analyze_segment. rewrite Hblank.
  assert (Hpos : analyze_pos nlp EmptyString = Ok POSCounts_default).
  { unfold analyze_pos. destruct nlp as [tagger|]; [|done].
    by rewrite (Htagger tagger eq_refl). }
  rewrite Hpos. cbn [mbind outcome_bind].
  change (analyze_readability ts EmptyString) with (0.0%Q, ReadabilityMetrics_default).
  change (analyze_orality None EmptyString) with (Ok 50.0%Q).
  cbn [mbind outcome_bind].
  assert (Hmarkers : extract_discourse_markers EmptyString = Ok []) by by vm_compute.
  rewrite Hmarkers. cbn [mbind outcome_bind].
  eexists. split; [reflexivity|].
  cbn [orality_score readability_score discourse_markers parts_of_speech].
  repeat split; vm_compute; reflexivity.
Qed.

Lemma blank_segment_result_witness :
  ∃ r, analyze_segment (Some sample_tagger) None (sample_textstat 60) None
         {| Segment.segment_index := 1; Segment.text := "   " |} = Ok r
    ∧ (orality_score r == 50.0)%Q
    ∧ (readability_score r == 0.0)%Q
    ∧ discourse_markers r = []
    ∧ parts_of_speech r = POSCounts_default.
Proof.
  apply blank_segment_result; [reflexivity|].
  intros tagger [= <-]. reflexivity.
Defined.

(** ** The contraction indicator *)

Lemma count_if_filter {A} (p : A → bool) (l : list A) :
  count_if p l = Z.of_nat (length (List.filter p l)).
Proof.
  induction l as [|x l IH]; [done|]. rewrite count_if_cons. cbn [List.filter].
  destruct (p x); cbn [length]; lia.
Qed.

Lemma py_min_int_min (a b : Z) : py_min_int a b = Z.min a b.
Proof. unfold py_min_int. destruct (b <? a) eqn:E; lia. Qed.

(** The claim of C6 as worded fails: "it's he's" holds the marker 's
    twice, so counting occurrences gives 10 points, and the code gives 5. *)
Lemma contraction_occurrences_counterexample :
  occurrences "'s" (str.lower "it's he's") = 2
  ∧ contraction_points_by_occurrence "it's he's" = 10
  ∧ contraction_points "it's he's" = 5
  ∧ contraction_points "it's he's" ≠ contraction_points_by_occurrence "it's he's".
Proof. by vm_compute. Qed.

(** C6, amended. The contraction indicator is 5 points for each of the
    seven markers that is contained in the lower-cased text at least once,
    however often it occurs, capped at 25; it is the last of the four
    summands of the heuristic score. *)
Theorem contraction_points_distinct_markers (text : string) :
  ∃ present : list string,
    NoDup present
    ∧ (∀ c, c ∈ present
         ↔ (c ∈ contractions ∧ ∃ pre post, occurs_at pre c post (str.lower text)))
    ∧ contraction_count text = Z.of_nat (length present)
    ∧ contraction_points text = Z.min (Z.of_nat (length present) * 5) 25.
Proof.
  exists (List.filter (λ c, str.contains c (str.lower text)) contractions).
  split; [|split; [|split]].
  - apply NoDup_list_filter. unfold contractions.
    repeat (apply NoDup_cons; split;
      [intros Hin; repeat (apply elem_of_cons in Hin as [Hin|Hin]; [discriminate Hin|]);
       by apply elem_of_nil in Hin|]).
    apply NoDup_nil_2.
  - intros c. by rewrite list_elem_of_In, filter_In, <- list_elem_of_In, contains_spec.
  - apply count_if_filter.
  - unfold contraction_points, contraction_count.
    by rewrite py_min_int_min, count_if_filter.
Qed.

(** ** Rounding keeps a score in range *)

Lemma round_half_even_range (y : Q) (n : Z) :
  (0 <= y)%Q → (y <= inject_Z n)%Q → 0 ≤ round_half_even y ≤ n.
Proof.
  intros H0 Hn.
  assert (Hf0 : 0 ≤ Qfloor y).
  { change 0 with (Qfloor 0). by apply Qfloor_resp_le. }
  assert (Hfn : Qfloor y ≤ n).
  { rewrite <- (Qfloor_Z n). by apply Qfloor_resp_le. }
  pose proof (Qfloor_le y) as Hfy.
  assert (Hup : (1 # 2 <= y - inject_Z (Qfloor y))%Q → Qfloor y + 1 ≤ n).
  { intros Hhalf. assert (Hlt : (inject_Z (Qfloor y) < inject_Z n)%Q) by lra.
    rewrite <- Zlt_Qlt in Hlt. lia. }
  unfold round_half_even.
  destruct (y - inject_Z (Qfloor y) ?= 1 # 2)%Q eqn:Hc.
  - apply Qeq_alt in Hc. destruct (Z.even (Qfloor y)); [lia|].
    split; [lia|]. apply Hup. lra.
  - lia.
  - apply Qgt_alt in Hc. split; [lia|]. apply Hup. lra.
Qed.

Lemma round2_range (x : Q) :
  (0 <= x)%Q → (x <= 100)%Q → (0 <= round2 x)%Q ∧ (round2 x <= 100)%Q.
Proof.
  intros H0 H100. unfold round2.
  destruct (round_half_even_range (x * 100) 10000) as [Hr0 Hr1].
  { lra. } { change (inject_Z 10000) with 10000%Q. lra. }
  rewrite Zle_Qle in Hr0, Hr1.
  change (inject_Z 0) with 0%Q in Hr0. change (inject_Z 10000) with 10000%Q in Hr1.
  split; [apply Qle_shift_div_l | apply Qle_shift_div_r]; lra.
Qed.

(** Both scores of every segment result reported to a caller lie in
    [0, 100], after rounding to two decimals. *)
Lemma segment_scores_in_range nlp coast ts lingfeat (segment : Segment)
    (r : SegmentResult) :
  analyze_segment nlp coast ts lingfeat segment = Ok r →
  ((0 <= orality_score r)%Q ∧ (orality_score r <= 100)%Q)
  ∧ ((0 <= readability_score r)%Q ∧ (readability_score r <= 100)%Q).
Proof.
  unfold analyze_segment. intros H.
  apply bind_Ok in H as (pos_counts & _ & H).
  pose proof (analyze_orality_range coast (str.strip (Segment.text segment)))
    as (v & Hv & Hv0 & Hv1).
  pose proof (analyze_readability_range ts (str.strip (Segment.text segment)))
    as [Hr0 Hr1].
  destruct (analyze_readability ts _) as [score metrics]. cbn [fst] in Hr0, Hr1.
  apply bind_Ok in H as (orality & Ho & H).
  apply bind_Ok in H as (markers & _ & H).
  injection H as <-. cbn [orality_score readability_score].
  rewrite Hv in Ho. injection Ho as <-.
  split; by apply round2_range.
Qed.

(** * Further properties of the pipeline *)

(** ** Where a segment's analysis can fail *)

Section Failures.

Context (nlp : option (string → outcome (list Token)))
        (coast : option (string → outcome Q))
        (ts : textstat.api)
        (lingfeat : option (string → outcome (gmap string Q))).

Lemma analyze_pos_Raise (text : string) (e : exn) :
  analyze_pos nlp text = Raise e
  ↔ ∃ tagger, nlp = Some tagger ∧ tagger text = Raise e.
Proof.
  unfold analyze_pos. destruct nlp as [tagger|].
  - destruct (tagger text) as [doc|e'] eqn:Htag; cbn.
    + split; [done | intros (t & [= <-] & Ht); congruence].
    + split.
      * intros [= ->]. by exists tagger.
      * intros (t & [= <-] & Ht). congruence.
  - split; [done | by intros (t & [=] & _)].
Qed.

Lemma analyze_segment_Raise (segment : Segment) (e : exn) :
  analyze_segment nlp coast ts lingfeat segment = Raise e
  ↔ analyze_pos nlp (str.strip (Segment.text segment)) = Raise e.
Proof.
  unfold analyze_segment.
  destruct (analyze_pos nlp _) as [pos_counts|e'] eqn:Hpos; cbn;
    [|by split; intros [= ->]].
  destruct (analyze_readability ts _) as [score metrics].
  destruct (analyze_orality_range coast (str.strip (Segment.text segment)))
    as (v & -> & _).
  cbn. by rewrite extract_discourse_markers_spec.
Qed.

Lemma analyze_loop_all_Ok (segs : list Segment) (acc new : list SegmentResult) :
  Forall2 (λ segment r, analyze_segment nlp coast ts lingfeat segment = Ok r) segs new →
  analyze_loop nlp coast ts lingfeat segs acc = Ok (acc ++ new).
Proof.
  intros H. revert acc. induction H as [|segment r segs new Hr _ IH]; intros acc;
    cbn [analyze_loop].
  - by rewrite app_nil_r.
  - rewrite Hr. cbn. rewrite IH. by rewrite <- app_assoc.
Qed.

Lemma analyze_loop_first_Raise (pre post : list Segment) (segment : Segment)
    (acc done_ : list SegmentResult) (e : exn) :
  Forall2 (λ segment r, analyze_segment nlp coast ts lingfeat segment = Ok r) pre done_ →
  analyze_segment nlp coast ts lingfeat segment = Raise e →
  analyze_loop nlp coast ts lingfeat (pre ++ segment :: post) acc = Raise e.
Proof.
  intros H Hs. revert acc. induction H as [|s r pre done_ Hr _ IH]; intros acc;
    cbn [analyze_loop app].
  - by rewrite Hs.
  - rewrite Hr. cbn. apply IH.
Qed.

End Failures.

(** ** The batch endpoint *)

Lemma analyze_Response200 nlp coast ts lingfeat (request : AnalysisRequest)
    (body : AnalysisResponse) :
  analyze nlp coast ts lingfeat request = Response200 body
  ↔ (success body = true ∧ error body = None
     ∧ Forall2 (λ segment r, analyze_segment nlp coast ts lingfeat segment = Ok r)
         (segments request) (results body)).
Proof.
  unfold analyze. split.
  - destruct (analyze_loop _ _ _ _ _ _) as [rs|e] eqn:Hloop; [|done].
    intros [= <-]. apply analyze_loop_Ok in Hloop as (new & -> & Hnew). done.
  - intros (Hs & He & Hall). destruct body as [s e rs]. cbn in *. subst s e.
    by rewrite (analyze_loop_all_Ok _ _ _ _ _ [] _ Hall).
Qed.

(** X1. The endpoint answers 200 exactly when the analysis of every
    segment returns; the body then has [success] set, no [error], and the
    segment results one for one. *)
Theorem batch_success_iff nlp coast ts lingfeat (request : AnalysisRequest)
    (body : AnalysisResponse) :
  analyze nlp coast ts lingfeat request = Response200 body
  ↔ (success body = true ∧ error body = None
     ∧ Forall2 (λ segment r, analyze_segment nlp coast ts lingfeat segment = Ok r)
         (segments request) (results body)).
Proof. apply analyze_Response200. Qed.

(** X2. When a segment raises and every segment before it returned, the
    detail of the 500 response is the message of that first exception;
    the segments after it play no part. *)
Theorem batch_failure_first_error nlp coast ts lingfeat (request : AnalysisRequest)
    (pre post : list Segment) (segment : Segment) (done_ : list SegmentResult)
    (e : exn) :
  segments request = pre ++ segment :: post →
  Forall2 (λ segment r, analyze_segment nlp coast ts lingfeat segment = Ok r) pre done_ →
  analyze_segment nlp coast ts lingfeat segment = Raise e →
  analyze nlp coast ts lingfeat request = HTTPException 500 (str_of_exn e).
Proof.
  intros Hsegs Hpre Hseg. unfold analyze. rewrite Hsegs.
  by rewrite (analyze_loop_first_Raise _ _ _ _ _ _ _ _ _ _ Hpre Hseg).
Qed.

Lemma batch_failure_first_error_witness :
  analyze (Some sample_tagger) None (sample_textstat 60) None failing_request
  = HTTPException 500 "tagger failed".
Proof.
  eapply (batch_failure_first_error (Some sample_tagger) None (sample_textstat 60) None
            failing_request
            [{| Segment.segment_index := 3; Segment.text := "Well, I think so." |}]
            [{| Segment.segment_index := 2; Segment.text := "Gasoline is expensive" |}]
            {| Segment.segment_index := 1; Segment.text := "boom" |}
            _ (Exception "tagger failed")).
  - reflexivity.
  - constructor; [vm_compute; reflexivity | constructor].
  - vm_compute. reflexivity.
Defined.

(** X3. The analysis of a segment raises only through the tagger: it
    raises [e] exactly when a tagger is loaded and raises [e] on the
    stripped text.  Failures of COAST, textstat and LingFeat, and the
    detector, never surface. *)
Theorem segment_fails_only_through_tagger nlp coast ts lingfeat
    (segment : Segment) (e : exn) :
  analyze_segment nlp coast ts lingfeat segment = Raise e
  ↔ ∃ tagger, nlp = Some tagger
      ∧ tagger (str.strip (Segment.text segment)) = Raise e.
Proof. by rewrite analyze_segment_Raise, analyze_pos_Raise. Qed.

(** X4. A request whose stripped texts the tagger accepts, and so every
    request when no tagger is loaded, is answered with 200 and one
    result per segment. *)
Theorem batch_succeeds_when_tagger_does nlp coast ts lingfeat
    (request : AnalysisRequest) :
  (∀ tagger segment, nlp = Some tagger → segment ∈ segments request →
     ∃ doc, tagger (str.strip (Segment.text segment)) = Ok doc) →
  ∃ body, analyze nlp coast ts lingfeat request = Response200 body
    ∧ length (results body) = length (segments request).
Proof.
  intros Htag.
  assert (Hall : ∃ rs, Forall2
      (λ segment r, analyze_segment nlp coast ts lingfeat segment = Ok r)
      (segments request) rs).
  { induction (segments request) as [|segment segs IH]; [by exists []|].
    destruct IH as [rs Hrs].
    { intros tagger s Hn Hin. apply (Htag tagger s Hn). by right. }
    destruct (analyze_segment nlp coast ts lingfeat segment) as [r|e] eqn:Hseg.
    - exists (r :: rs). by constructor.
    - apply analyze_segment_Raise, analyze_pos_Raise in Hseg as (tagger & Hn & He).
      destruct (Htag tagger segment Hn) as [doc Hdoc]; [by left | congruence]. }
  destruct Hall as [rs Hrs].
  exists {| success := true; error := None; results := rs |}.
  split; [by apply analyze_Response200 | symmetry; apply (Forall2_length _ _ _ Hrs)].
Qed.

Lemma batch_succeeds_when_tagger_does_witness :
  ∃ body, analyze (Some sample_tagger) None (sample_textstat 60) None sample_request
          = Response200 body
    ∧ length (results body) = length (segments sample_request).
Proof.
  apply batch_succeeds_when_tagger_does.
  intros tagger segment [= <-] Hin. unfold sample_request in Hin. cbn [segments] in Hin.
  repeat (apply elem_of_cons in Hin as [->|Hin]; [eexists; vm_compute; reflexivity|]).
  by apply elem_of_nil in Hin.
Defined.

(** X5. Batches compose: when two requests are each answered with 200,
    the request with their segments one after the other is answered with
    200 and the two result lists one after the other; no segment's result
    depends on the rest of its batch. *)
Theorem batch_results_concatenate nlp coast ts lingfeat
    (segs1 segs2 : list Segment) (body1 body2 : AnalysisResponse) :
  analyze nlp coast ts lingfeat {| segments := segs1 |} = Response200 body1 →
  analyze nlp coast ts lingfeat {| segments := segs2 |} = Response200 body2 →
  analyze nlp coast ts lingfeat {| segments := segs1 ++ segs2 |}
  = Response200 {| success := true; error := None;
                   results := results body1 ++ results body2 |}.
Proof.
  intros (_ & _ & H1)%analyze_Response200 (_ & _ & H2)%analyze_Response200.
  apply analyze_Response200. cbn in *. split; [done|]. split; [done|].
  by apply Forall2_app.
Qed.

Lemma batch_results_concatenate_witness :
  ∃ body1 body2,
    analyze None None (sample_textstat 60) None
      {| segments := segments sample_request ++ segments failing_request |}
    = Response200 {| success := true; error := None;
                     results := results body1 ++ results body2 |}.
Proof.
  eexists _, _.
  apply (batch_results_concatenate None None (sample_textstat 60) None
           (segments sample_request) (segments failing_request));
    vm_compute; reflexivity.
Defined.

(** ** Stripping and lower-casing *)

Lemma lstrip_no_leading (s : string) : no_leading_space (str.lstrip s) = true.
Proof.
  induction s as [|c s IH]; cbn [str.lstrip]; [done|].
  destruct (str.isspace c) eqn:Hc; [done|]. cbn. by rewrite Hc.
Qed.

Lemma lstrip_id (s : string) : no_leading_space s = true → str.lstrip s = s.
Proof.
  destruct s as [|c s]; cbn; [done|]. by destruct (str.isspace c).
Qed.

Lemma rstrip_no_leading (s : string) :
  no_leading_space s = true → no_leading_space (str.rstrip s) = true.
Proof.
  destruct s as [|c s]; cbn [str.rstrip no_leading_space]; [done|].
  intros Hc. destruct (str.rstrip s); [|done].
  destruct (str.isspace c) eqn:E; [done|]. cbn. by rewrite E.
Qed.

Lemma rstrip_cons (c : ascii) (s : string) :
  str.rstrip (String c s)
  = match str.rstrip s with
    | EmptyString => if str.isspace c then EmptyString else String c EmptyString
    | r => String c r
    end.
Proof. reflexivity. Qed.

Lemma rstrip_idem (s : string) : str.rstrip (str.rstrip s) = str.rstrip s.
Proof.
  induction s as [|c s IH]; [done|]. rewrite rstrip_cons.
  destruct (str.rstrip s) as [|c' r] eqn:Hr.
  - destruct (str.isspace c) eqn:Hc; [done|]. cbn. by rewrite Hc.
  - by rewrite rstrip_cons, IH.
Qed.

(** Stripping twice is stripping once. *)
Lemma strip_idem (s : string) : str.strip (str.strip s) = str.strip s.
Proof.
  unfold str.strip.
  rewrite (lstrip_id (str.rstrip (str.lstrip s)))
    by apply rstrip_no_leading, lstrip_no_leading.
  apply rstrip_idem.
Qed.

Lemma lower_char_idem (c : ascii) :
  str.lower_char (str.lower_char c) = str.lower_char c.
Proof. each_char c; reflexivity. Qed.

Lemma lower_idem (s : string) : str.lower (str.lower s) = str.lower s.
Proof.
  induction s as [|c s IH]; cbn [str.lower]; [done|].
  by rewrite lower_char_idem, IH.
Qed.

(** X6. White space around a segment's text never changes the result:
    the analysis of a segment equals the analysis of the segment with the
    text already stripped, and the text it reports is the stripped one. *)
Theorem surrounding_whitespace_ignored nlp coast ts lingfeat (index : Z)
    (t : string) :
  analyze_segment nlp coast ts lingfeat
    {| Segment.segment_index := index; Segment.text := str.strip t |}
  = analyze_segment nlp coast ts lingfeat
      {| Segment.segment_index := index; Segment.text := t |}
  ∧ ∀ r, analyze_segment nlp coast ts lingfeat
           {| Segment.segment_index := index; Segment.text := t |} = Ok r →
         text r = str.strip t ∧ no_leading_space (text r) = true.
Proof.
  split.
  - unfold analyze_segment. cbn [Segment.text Segment.segment_index].
    by rewrite strip_idem.
  - unfold analyze_segment. cbn [Segment.text Segment.segment_index]. intros r H.
    apply bind_Ok in H as (pos_counts & _ & H).
    destruct (analyze_readability ts _) as [score metrics].
    apply bind_Ok in H as (orality & _ & H).
    apply bind_Ok in H as (markers & _ & H).
    injection H as <-. cbn [text]. split; [done|].
    apply rstrip_no_leading, lstrip_no_leading.
Qed.

Lemma surrounding_whitespace_ignored_witness :
  ∃ r, analyze_segment None None (sample_textstat 60) None
         {| Segment.segment_index := 7; Segment.text := "  so it goes  " |} = Ok r
    ∧ text r = "so it goes".
Proof.
  eexists. split; [vm_compute; reflexivity|].
  refine (proj1 (proj2 (surrounding_whitespace_ignored None None (sample_textstat 60)
                          None 7 "  so it goes  ") _ _)).
  vm_compute. reflexivity.
Defined.

(** ** Case and the two marker scans *)

(** X7. The detector is case-insensitive: two texts with the same
    lower-casing yield the same marker list, and lower-casing a text
    beforehand changes nothing. *)
Theorem discourse_markers_case_insensitive (t1 t2 : string) :
  str.lower t1 = str.lower t2 →
  extract_discourse_markers t1 = extract_discourse_markers t2
  ∧ extract_discourse_markers (str.lower t1) = extract_discourse_markers t1.
Proof.
  intros H. unfold extract_discourse_markers. rewrite lower_idem, H.
  split; reflexivity.
Qed.

Lemma discourse_markers_case_insensitive_witness :
  extract_discourse_markers "Well, I THINK So"
  = extract_discourse_markers "well, i think so".
Proof.
  apply (discourse_markers_case_insensitive "Well, I THINK So" "well, i think so").
  reflexivity.
Defined.

(** X8. The heuristic is case-insensitive: two texts with the same
    lower-casing get the same heuristic score. *)
Theorem heuristic_orality_case_insensitive (t1 t2 : string) :
  str.lower t1 = str.lower t2 →
  heuristic_orality t1 = heuristic_orality t2.
Proof.
  intros H. unfold heuristic_orality, discourse_count, contraction_count.
  rewrite !strip_is_empty, <- (all_space_lower t1), <- (all_space_lower t2).
  by rewrite H.
Qed.

Lemma heuristic_orality_case_insensitive_witness :
  heuristic_orality "YOU KNOW It's Fine" = heuristic_orality "you know it's fine".
Proof.
  apply heuristic_orality_case_insensitive. reflexivity.
Defined.

Lemma filter_andb_length {A} (p q : A → bool) (l : list A) :
  (length (List.filter (λ x, p x && q x) l) ≤ length (List.filter p l))%nat.
Proof.
  induction l as [|x l IH]; cbn [List.filter]; [done|].
  destruct (p x), (q x); cbn [andb length]; lia.
Qed.

(** X9. The heuristic's discourse count, a plain containment scan, is
    never below the number of markers the detector reports for the same
    text: every detected marker is also a containment hit. *)
Theorem detected_markers_at_most_discourse_count (text : string) :
  ∃ found, extract_discourse_markers text = Ok found
    ∧ Z.of_nat (length found) ≤ discourse_count text.
Proof.
  eexists. split; [apply extract_discourse_markers_spec|].
  unfold discourse_count. rewrite count_if_filter.
  apply inj_le. unfold marker_found.
  apply (filter_andb_length (λ marker, str.contains marker (str.lower text))).
Qed.

(** ** The heuristic's indicators *)







(** ** Clamping and the external scores *)

Lemma clamp_max_min_cases (x : Q) :
  ((x <= 0)%Q → (py_max 0.0 (py_min 100.0 x) == 0)%Q)
  ∧ ((0 <= x)%Q → (x <= 100)%Q → (py_max 0.0 (py_min 100.0 x) == x)%Q)
  ∧ ((100 <= x)%Q → (py_max 0.0 (py_min 100.0 x) == 100)%Q).
Proof.
  unfold py_min, py_max.
  destruct (Qlt_bool x 100.0) eqn:E1.
  - apply Qlt_bool_iff in E1. destruct (Qlt_bool 0.0 x) eqn:E2.
    + apply Qlt_bool_iff in E2. repeat split; intros; lra.
    + apply Qlt_bool_false in E2. repeat split; intros; lra.
  - apply Qlt_bool_false in E1. destruct (Qlt_bool 0.0 100.0) eqn:E2.
    + repeat split; intros; lra.
    + apply Qlt_bool_false in E2. repeat split; intros; lra.
Qed.

Lemma clamp_min_max_cases (x : Q) :
  ((x <= 0)%Q → (py_min 100.0 (py_max 0.0 x) == 0)%Q)
  ∧ ((0 <= x)%Q → (x <= 100)%Q → (py_min 100.0 (py_max 0.0 x) == x)%Q)
  ∧ ((100 <= x)%Q → (py_min 100.0 (py_max 0.0 x) == 100)%Q).
Proof.
  unfold py_min, py_max.
  destruct (Qlt_bool 0.0 x) eqn:E1.
  - apply Qlt_bool_iff in E1. destruct (Qlt_bool x 100.0) eqn:E2.
    + apply Qlt_bool_iff in E2. repeat split; intros; lra.
    + apply Qlt_bool_false in E2. repeat split; intros; lra.
  - apply Qlt_bool_false in E1. destruct (Qlt_bool 0.0 100.0) eqn:E2.
    + repeat split; intros; lra.
    + apply Qlt_bool_false in E2. repeat split; intros; lra.
Qed.

(** X12. Readability is all or nothing: when any one of the six textstat
    formulas raises on a text, the adapter returns score 0.0 and all six
    metrics at their default 0.0, also those already computed. *)
Theorem readability_failure_zeroes_all ts (text : string) :
  (∃ e, textstat.flesch_reading_ease ts text = Raise e
        ∨ textstat.flesch_kincaid_grade ts text = Raise e
        ∨ textstat.gunning_fog ts text = Raise e
        ∨ textstat.smog_index ts text = Raise e
        ∨ textstat.automated_readability_index ts text = Raise e
        ∨ textstat.coleman_liau_index ts text = Raise e) →
  analyze_readability ts text = (0.0%Q, ReadabilityMetrics_default).
Proof.
  intros (e & H). unfold analyze_readability.
  destruct (is_empty (str.strip text)); [done|].
  destruct (textstat.flesch_reading_ease ts text) as [v1|]; cbn; [|done].
  destruct (textstat.flesch_kincaid_grade ts text) as [v2|]; cbn; [|done].
  destruct (textstat.gunning_fog ts text) as [v3|]; cbn; [|done].
  destruct (textstat.smog_index ts text) as [v4|]; cbn; [|done].
  destruct (textstat.automated_readability_index ts text) as [v5|]; cbn; [|done].
  destruct (textstat.coleman_liau_index ts text) as [v6|]; cbn; [|done].
  destruct H as [H|[H|[H|[H|[H|H]]]]]; discriminate H.
Qed.

Lemma readability_failure_zeroes_all_witness :
  analyze_readability failing_textstat "Gasoline is expensive"
  = (0.0%Q, ReadabilityMetrics_default).
Proof.
  apply readability_failure_zeroes_all.
  exists ZeroDivisionError. right. right. left. reflexivity.
Defined.

(** X13. When the six formulas return on a text that is not blank, the
    metrics carry the six values as returned, unclamped, and the primary
    score is the Flesch Reading Ease value cut to [0, 100]: 0 below 0, the
    value itself in range, 100 above 100. *)
Theorem readability_success ts (text : string) (v1 v2 v3 v4 v5 v6 : Q) :
  is_empty (str.strip text) = false →
  textstat.flesch_reading_ease ts text = Ok v1 →
  textstat.flesch_kincaid_grade ts text = Ok v2 →
  textstat.gunning_fog ts text = Ok v3 →
  textstat.smog_index ts text = Ok v4 →
  textstat.automated_readability_index ts text = Ok v5 →
  textstat.coleman_liau_index ts text = Ok v6 →
  (analyze_readability ts text).2
  = {| flesch_reading_ease := v1; flesch_kincaid_grade := v2; gunning_fog := v3;
       smog_index := v4; automated_readability_index := v5;
       coleman_liau_index := v6 |}
  ∧ ((v1 <= 0)%Q → ((analyze_readability ts text).1 == 0)%Q)
  ∧ ((0 <= v1)%Q → (v1 <= 100)%Q → ((analyze_readability ts text).1 == v1)%Q)
  ∧ ((100 <= v1)%Q → ((analyze_readability ts text).1 == 100)%Q).
Proof.
  intros Hne H1 H2 H3 H4 H5 H6. unfold analyze_readability.
  rewrite Hne, H1, H2, H3, H4, H5, H6. cbn.
  split; [done | apply clamp_max_min_cases].
Qed.

Lemma readability_success_witness :
  flesch_reading_ease (analyze_readability (sample_textstat 120.5) "Gasoline").2
  = 120.5%Q
  ∧ ((analyze_readability (sample_textstat 120.5) "Gasoline").1 == 100)%Q.
Proof.
  destruct (readability_success (sample_textstat 120.5) "Gasoline"
              120.5 120.5 120.5 120.5 120.5 120.5)
    as (Hm & _ & _ & Hhi); try reflexivity.
  split; [by rewrite Hm | apply Hhi; lra].
Defined.

(** X14. With COAST loaded, a returned score is scaled by 100 and cut to
    [0, 100]: 0 for a score at or below 0, 100 times the score in [0, 1],
    100 for a score at or above 1.  When the call raises, the result is
    the heuristic score of the text. *)
Theorem coast_score_scaled_or_fallback (model : string → outcome Q) (text : string) :
  (∀ score, model text = Ok score →
     ∃ v, analyze_orality (Some model) text = Ok v
       ∧ ((score <= 0)%Q → (v == 0)%Q)
       ∧ ((0 <= score)%Q → (score <= 1)%Q → (v == score * 100)%Q)
       ∧ ((1 <= score)%Q → (v == 100)%Q))
  ∧ (∀ e, model text = Raise e →
       analyze_orality (Some model) text = heuristic_orality text).
Proof.
  unfold analyze_orality. split.
  - intros score ->. cbn. eexists. split; [done|].
    destruct (clamp_min_max_cases (score * 100)) as (Hlo & Hmid & Hhi).
    repeat split; intros; [apply Hlo | apply Hmid | apply Hhi]; lra.
  - by intros e ->.
Qed.

Lemma coast_score_scaled_or_fallback_witness :
  (∃ v, analyze_orality (Some sample_coast) "Gasoline" = Ok v ∧ (v == 100)%Q)
  ∧ analyze_orality (Some sample_coast) "boom" = heuristic_orality "boom".
Proof.
  split.
  - destruct (proj1 (coast_score_scaled_or_fallback sample_coast "Gasoline") 1.3%Q)
      as (v & Hv & _ & _ & Hhi); [reflexivity|].
    exists v. split; [exact Hv | apply Hhi; lra].
  - apply (proj2 (coast_score_scaled_or_fallback sample_coast "boom")
             (Exception "model failed")). reflexivity.
Defined.

(** ** The extended feature adapter *)

(** X15. The summary is omitted exactly when LingFeat is not loaded, the
    text is blank, or the extraction raises; otherwise it is present and
    each of its three fields is the feature of that name, or 0.0 when the
    extractor's dict has no such key. *)
Theorem lingfeat_summary_presence lingfeat (text : string) :
  (analyze_lingfeat lingfeat text = None
   ↔ (lingfeat = None
      ∨ is_empty (str.strip text) = true
      ∨ ∃ extract e, lingfeat = Some extract ∧ extract text = Raise e))
  ∧ (∀ extract features,
       lingfeat = Some extract → is_empty (str.strip text) = false →
       extract text = Ok features →
       analyze_lingfeat lingfeat text
       = Some {| lexical_diversity := default 0.0%Q (features !! "LexicalDiversity");
                 avg_word_length := default 0.0%Q (features !! "AvgWordLength");
                 sentence_complexity :=
                   default 0.0%Q (features !! "SentenceComplexity") |}).
Proof.
  unfold analyze_lingfeat. split.
  - destruct lingfeat as [extract|]; [|split; [by left | done]].
    destruct (is_empty (str.strip text)); [split; [by right; left | done]|].
    destruct (extract text) as [features|e] eqn:He.
    + split; [done|]. intros [H|[H|(x & e & [= <-] & H)]]; congruence.
    + split; [|done]. intros _. right. right. by exists extract, e.
  - intros extract features -> -> ->. done.
Qed.

Lemma lingfeat_summary_presence_witness :
  analyze_lingfeat (Some sample_lingfeat) "Gasoline is expensive"
  = Some {| lexical_diversity := 0.0%Q; avg_word_length := 4.5%Q;
            sentence_complexity := 0.0%Q |}.
Proof.
  rewrite (proj2 (lingfeat_summary_presence (Some sample_lingfeat)
                    "Gasoline is expensive") sample_lingfeat
             {[ "AvgWordLength" := 4.5%Q ]} eq_refl eq_refl eq_refl).
  vm_compute. reflexivity.
Defined.

(** ** Invariants of the POS counters *)

Lemma total_bucket_counts (doc : list Token) :
  total_count (bucket_counts doc) = tag_count pos_table doc.
Proof.
  induction doc as [|token doc IH]; [done|].
  revert IH. unfold total_count, bucket_counts, tag_count. cbn [nouns verbs adjectives
    adverbs pronouns prepositions conjunctions interjections].
  rewrite !count_if_cons. destruct token as [pos].
  unfold list_contains, pos_table. cbn [pos_ existsb].
  tag_cases pos; cbn; lia.
Qed.

Lemma bucket_counts_nonneg (doc : list Token) :
  let c := bucket_counts doc in
  0 ≤ nouns c ∧ 0 ≤ verbs c ∧ 0 ≤ adjectives c ∧ 0 ≤ adverbs c ∧ 0 ≤ pronouns c
  ∧ 0 ≤ prepositions c ∧ 0 ≤ conjunctions c ∧ 0 ≤ interjections c.
Proof. cbn. repeat split; apply count_if_nonneg. Qed.

(** X16. Every token is counted at most once: when the tagger returns a
    document, no counter is negative and the eight counters add up to the
    number of tokens whose tag is in the table, which is at most the
    number of tokens. *)
Theorem pos_counts_conserve_tokens (tagger : string → outcome (list Token))
    (text : string) (doc : list Token) :
  tagger text = Ok doc →
  ∃ c, analyze_pos (Some tagger) text = Ok c
    ∧ (0 ≤ nouns c ∧ 0 ≤ verbs c ∧ 0 ≤ adjectives c ∧ 0 ≤ adverbs c ∧ 0 ≤ pronouns c
       ∧ 0 ≤ prepositions c ∧ 0 ≤ conjunctions c ∧ 0 ≤ interjections c)
    ∧ total_count c = tag_count pos_table doc
    ∧ total_count c ≤ Z.of_nat (length doc).
Proof.
  intros Hdoc. exists (bucket_counts doc). unfold analyze_pos. rewrite Hdoc. cbn.
  rewrite fold_count_token, add_counts_default. split; [done|].
  split; [apply bucket_counts_nonneg|]. rewrite total_bucket_counts.
  split; [done | apply count_if_le_length].
Qed.

Lemma pos_counts_conserve_tokens_witness :
  ∃ c, analyze_pos (Some sample_tagger) "Gasoline is expensive" = Ok c
    ∧ total_count c = 3.
Proof.
  destruct (pos_counts_conserve_tokens sample_tagger "Gasoline is expensive"
              (sample_tagger_doc "Gasoline is expensive") eq_refl)
    as (c & Hc & _ & Ht & _).
  exists c. split; [exact Hc | by rewrite Ht].
Defined.

Lemma count_if_Permutation {A} (p : A → bool) (l1 l2 : list A) :
  l1 ≡ₚ l2 → count_if p l1 = count_if p l2.
Proof.
  induction 1 as [|x l1 l2 _ IH|x y l|l1 l2 l3 _ IH1 _ IH2];
    rewrite ?count_if_cons; [done | by rewrite IH | lia | congruence].
Qed.

(** X17. The counts do not depend on the order of the tokens: two
    taggers whose documents for a text are permutations of each other
    give the same counts. *)
Theorem pos_counts_order_independent (tagger1 tagger2 : string → outcome (list Token))
    (text : string) (doc1 doc2 : list Token) :
  tagger1 text = Ok doc1 → tagger2 text = Ok doc2 → doc1 ≡ₚ doc2 →
  analyze_pos (Some tagger1) text = analyze_pos (Some tagger2) text.
Proof.
  intros H1 H2 Hperm. unfold analyze_pos. rewrite H1, H2. cbn.
  rewrite !fold_count_token. do 2 f_equal.
  unfold bucket_counts, tag_count. by rewrite !(count_if_Permutation _ _ _ Hperm).
Qed.

Lemma pos_counts_order_independent_witness :
  analyze_pos (Some forward_tagger) "Gasoline is expensive"
  = analyze_pos (Some reversed_tagger) "Gasoline is expensive".
Proof.
  eapply (pos_counts_order_independent forward_tagger reversed_tagger);
    [reflexivity | reflexivity |].
  symmetry. apply reverse_Permutation.
Defined.

(** ** Rounding of the reported scores *)





(** ** Monotonicity of the indicators *)

(** X19. Shorter words never score lower: the points of the word-length
    indicator do not increase with the average word length, and they are
    one of 25, 15, 5 and 0. *)
Theorem word_length_points_antitone (avg1 avg2 : Q) :
  (avg1 <= avg2)%Q →
  (word_length_points avg2 <= word_length_points avg1)%Q
  ∧ (word_length_points avg1 = 25%Q ∨ word_length_points avg1 = 15%Q
     ∨ word_length_points avg1 = 5%Q ∨ word_length_points avg1 = 0%Q).
Proof.
  intros Hle. unfold word_length_points.
  destruct (Qlt_bool avg1 4) eqn:A4, (Qlt_bool avg1 5) eqn:A5, (Qlt_bool avg1 6) eqn:A6,
    (Qlt_bool avg2 4) eqn:B4, (Qlt_bool avg2 5) eqn:B5, (Qlt_bool avg2 6) eqn:B6;
    rewrite ?Qlt_bool_iff, ?Qlt_bool_false in *;
    (split; [lra | auto]).
Qed.

Lemma word_length_points_antitone_witness :
  (word_length_points 5.5 <= word_length_points 4.5)%Q.
Proof.
  apply (word_length_points_antitone 4.5 5.5). lra.
Defined.

Lemma append_assoc (a b c : string) : (a +:+ b) +:+ c = a +:+ (b +:+ c).
Proof. induction a as [|x a IH]; [done|]. by rewrite !append_cons, IH. Qed.

Lemma lower_append (a b : string) :
  str.lower (a +:+ b) = str.lower a +:+ str.lower b.
Proof.
  induction a as [|x a IH]; [done|].
  rewrite append_cons. cbn [str.lower]. by rewrite IH, append_cons.
Qed.

Lemma contains_extend (sub pre t post : string) :
  str.contains sub t = true → str.contains sub (pre +:+ t +:+ post) = true.
Proof.
  rewrite !contains_spec. unfold occurs_at. intros (p & q & ->).
  exists (pre +:+ p), (q +:+ post). by rewrite !append_assoc.
Qed.

Lemma count_if_mono {A} (p q : A → bool) (l : list A) :
  (∀ x, p x = true → q x = true) → count_if p l ≤ count_if q l.
Proof.
  intros Hpq. induction l as [|x l IH]; [done|]. rewrite !count_if_cons.
  specialize (Hpq x). destruct (p x), (q x); try lia; by specialize (Hpq eq_refl).
Qed.

(** X20. Text around a passage never lowers its containment counts: the
    discourse count and the contraction count of a text are at most those
    of any text that contains it. *)
Theorem hit_counts_monotone (pre t post : string) :
  discourse_count t ≤ discourse_count (pre +:+ t +:+ post)
  ∧ contraction_count t ≤ contraction_count (pre +:+ t +:+ post).
Proof.
  unfold discourse_count, contraction_count. rewrite !lower_append.
  split; apply count_if_mono; intros x; apply contains_extend.
Qed.
